(** * MorseDiscord: the key-gated sine oscillator of [src/main.py] and the
    key mapping of [src/utils/keyutils.py].

    Numbers.  The code computes on Python floats.  Two models of it stand
    side by side.  In the first, floats are the real numbers [R] of the
    Standard Library, integers are [Z] and [np.sin] is the real sine: it
    gives the samples, and what it says holds of the code up to rounding.
    In the second ([generate_audio64], [audio_callback64]), floats are
    IEEE binary64 numbers and every operation rounds as the machine does:
    it gives the number of rows written and the offset stored, exactly as
    the code computes them, and leaves the sine out.  Statements that turn
    on whether an offset is exactly 0, or on which side of a whole number
    a product falls, are made in the second model.

    Effects.  A Python call either returns, raises, or does not come back
    (the [while] loop of [generate_audio] spins for ever when [FREQUENCY] is
    negative).  The [outcome] type below has the three cases; loops take a
    fuel argument that bounds the number of times the loop test is
    evaluated. *)

From Stdlib Require Import Reals Lra Lia ZArith List QArith Floats.
From stdpp Require Import base decidable countable strings list gmap fin_maps pretty.
Import ListNotations.

(** ** Python strings

    A string is a list of characters.  The alphabet is the code points
    below 256 together with U+0130 (capital I with dot above), the one
    character whose lower-case form is two characters long, and U+0307
    (combining dot above), which that form brings in.  [len] is the number
    of characters. *)

Inductive char : Type :=
| Latin (c : Ascii.ascii)
| CapitalIDot
| CombiningDot.

#[global] Instance char_eq_dec : EqDecision char.
Proof. solve_decision. Defined.

#[global] Instance char_countable : Countable char :=
  inj_countable'
    (fun c => match c with
              | Latin a => inl a
              | CapitalIDot => inr true
              | CombiningDot => inr false
              end)
    (fun s => match s with
              | inl a => Latin a
              | inr true => CapitalIDot
              | inr false => CombiningDot
              end)
    (fun c => match c with Latin _ | CapitalIDot | CombiningDot => eq_refl end).

Definition str : Type := list char.

(** A literal of code points below 256. *)
Fixpoint latin (s : string) : str :=
  match s with
  | EmptyString => []
  | String c s' => Latin c :: latin s'
  end.

(** [str.lower] of a code point below 256: the capitals are [A]-[Z] and,
    in the upper half, 192-214 and 216-222; each has its small letter 32
    places on. *)
Definition lower_latin (c : Ascii.ascii) : Ascii.ascii :=
  let n := Ascii.nat_of_ascii c in
  if ((65 <=? n) && (n <=? 90)
      || (192 <=? n) && (n <=? 214)
      || (216 <=? n) && (n <=? 222))%nat
  then Ascii.ascii_of_nat (n + 32) else c.

(** [str.lower] of one character: U+0130 becomes [i] followed by U+0307. *)
Definition lower_char (c : char) : str :=
  match c with
  | Latin a => [Latin (lower_latin a)]
  | CapitalIDot => [Latin (Ascii.ascii_of_nat 105); CombiningDot]
  | CombiningDot => [CombiningDot]
  end.

(** [str.lower]. *)
Fixpoint lower (s : str) : str :=
  match s with
  | [] => []
  | c :: s' => lower_char c ++ lower s'
  end.

(** ** Outcomes of a Python call *)

Inductive exn : Type :=
| ZeroDivisionError
| ValueError (msg : str)
| OverflowError.

Inductive outcome (A : Type) : Type :=
| Returns (a : A)
| Raises (e : exn)
| OutOfFuel.

Arguments Returns {A} a.
Arguments Raises {A} e.
Arguments OutOfFuel {A}.

#[global] Instance outcome_ret : MRet outcome := fun A a => Returns a.

#[global] Instance outcome_bind : MBind outcome := fun A B k m =>
  match m with
  | Returns a => k a
  | Raises e => Raises e
  | OutOfFuel => OutOfFuel
  end.

(** ** pynput key objects, as far as [keyutils] and the listener use them

    [keyboard.Key] is an enumeration with aliases: names that are bound to
    the same value are one member, known by the first of its names.  The
    members here are those of pynput's X11 backend, where [alt_l], [cmd_l],
    [ctrl_l] and [shift_l] are aliases of [alt], [cmd], [ctrl] and [shift];
    other backends alias other names.  [Key.end] is spelt [end_].  A
    [keyboard.KeyCode] is identified by its [char]. *)

Module Key.

Inductive t : Type :=
| alt | alt_gr | alt_r | backspace | caps_lock | cmd | cmd_r | ctrl
| ctrl_r | delete | down | end_ | enter | esc | f1 | f2 | f3 | f4 | f5
| f6 | f7 | f8 | f9 | f10 | f11 | f12 | f13 | f14 | f15 | f16 | f17 | f18
| f19 | f20 | home | insert | left | media_next | media_play_pause
| media_previous | media_volume_down | media_volume_mute | media_volume_up
| menu | num_lock | page_down | page_up | pause | print_screen | right
| scroll_lock | shift | shift_r | space | tab | up.

(** The [name] attribute of a member. *)
Definition name (k : t) : str :=
  match k with
  | alt => latin "alt"
  | alt_gr => latin "alt_gr"
  | alt_r => latin "alt_r"
  | backspace => latin "backspace"
  | caps_lock => latin "caps_lock"
  | cmd => latin "cmd"
  | cmd_r => latin "cmd_r"
  | ctrl => latin "ctrl"
  | ctrl_r => latin "ctrl_r"
  | delete => latin "delete"
  | down => latin "down"
  | end_ => latin "end"
  | enter => latin "enter"
  | esc => latin "esc"
  | f1 => latin "f1"
  | f2 => latin "f2"
  | f3 => latin "f3"
  | f4 => latin "f4"
  | f5 => latin "f5"
  | f6 => latin "f6"
  | f7 => latin "f7"
  | f8 => latin "f8"
  | f9 => latin "f9"
  | f10 => latin "f10"
  | f11 => latin "f11"
  | f12 => latin "f12"
  | f13 => latin "f13"
  | f14 => latin "f14"
  | f15 => latin "f15"
  | f16 => latin "f16"
  | f17 => latin "f17"
  | f18 => latin "f18"
  | f19 => latin "f19"
  | f20 => latin "f20"
  | home => latin "home"
  | insert => latin "insert"
  | left => latin "left"
  | media_next => latin "media_next"
  | media_play_pause => latin "media_play_pause"
  | media_previous => latin "media_previous"
  | media_volume_down => latin "media_volume_down"
  | media_volume_mute => latin "media_volume_mute"
  | media_volume_up => latin "media_volume_up"
  | menu => latin "menu"
  | num_lock => latin "num_lock"
  | page_down => latin "page_down"
  | page_up => latin "page_up"
  | pause => latin "pause"
  | print_screen => latin "print_screen"
  | right => latin "right"
  | scroll_lock => latin "scroll_lock"
  | shift => latin "shift"
  | shift_r => latin "shift_r"
  | space => latin "space"
  | tab => latin "tab"
  | up => latin "up"
  end.

#[global] Instance eq_dec : EqDecision t.
Proof. solve_decision. Defined.

End Key.

Inductive key : Type :=
| Special (k : Key.t)
| KeyCode (char : str).

#[global] Instance key_eq_dec : EqDecision key.
Proof. solve_decision. Defined.

(** ** Key mapping ([src/utils/keyutils.py]) *)

(** Lines 11-72. *)
Definition SPECIAL_KEYS : gmap str Key.t :=
  list_to_map [
    (latin "alt", Key.alt);
    (latin "alt_gr", Key.alt_gr);
    (latin "alt_l", Key.alt);
    (latin "alt_r", Key.alt_r);
    (latin "backspace", Key.backspace);
    (latin "caps_lock", Key.caps_lock);
    (latin "cmd", Key.cmd);
    (latin "cmd_l", Key.cmd);
    (latin "cmd_r", Key.cmd_r);
    (latin "ctrl", Key.ctrl);
    (latin "ctrl_l", Key.ctrl);
    (latin "ctrl_r", Key.ctrl_r);
    (latin "delete", Key.delete);
    (latin "down", Key.down);
    (latin "end", Key.end_);
    (latin "enter", Key.enter);
    (latin "esc", Key.esc);
    (latin "f1", Key.f1);
    (latin "f2", Key.f2);
    (latin "f3", Key.f3);
    (latin "f4", Key.f4);
    (latin "f5", Key.f5);
    (latin "f6", Key.f6);
    (latin "f7", Key.f7);
    (latin "f8", Key.f8);
    (latin "f9", Key.f9);
    (latin "f10", Key.f10);
    (latin "f11", Key.f11);
    (latin "f12", Key.f12);
    (latin "f13", Key.f13);
    (latin "f14", Key.f14);
    (latin "f15", Key.f15);
    (latin "f16", Key.f16);
    (latin "f17", Key.f17);
    (latin "f18", Key.f18);
    (latin "f19", Key.f19);
    (latin "f20", Key.f20);
    (latin "home", Key.home);
    (latin "insert", Key.insert);
    (latin "left", Key.left);
    (latin "media_next", Key.media_next);
    (latin "media_play_pause", Key.media_play_pause);
    (latin "media_previous", Key.media_previous);
    (latin "media_volume_down", Key.media_volume_down);
    (latin "media_volume_mute", Key.media_volume_mute);
    (latin "media_volume_up", Key.media_volume_up);
    (latin "menu", Key.menu);
    (latin "num_lock", Key.num_lock);
    (latin "page_down", Key.page_down);
    (latin "page_up", Key.page_up);
    (latin "pause", Key.pause);
    (latin "print_screen", Key.print_screen);
    (latin "right", Key.right);
    (latin "scroll_lock", Key.scroll_lock);
    (latin "shift", Key.shift);
    (latin "shift_l", Key.shift);
    (latin "shift_r", Key.shift_r);
    (latin "space", Key.space);
    (latin "tab", Key.tab);
    (latin "up", Key.up)
  ].

(** Key objects are dictionary keys: a member is told by its name. *)
#[global] Instance Key_countable : Countable Key.t.
Proof.
  refine (inj_countable Key.name (fun s => SPECIAL_KEYS !! s) _).
  intros k; destruct k; vm_compute; reflexivity.
Defined.

#[global] Instance key_countable : Countable key :=
  inj_countable'
    (fun k => match k with Special k => inl k | KeyCode c => inr c end)
    (fun s => match s with inl k => Special k | inr c => KeyCode c end)
    (fun k => match k with Special _ | KeyCode _ => eq_refl end).

(** Lines 74-89. *)
Definition key_object (name : str) : outcome key :=
  let name := lower name in
  match SPECIAL_KEYS !! name with
  | Some k => Returns (Special k)
  | None =>
      if decide (length name = 1%nat) then Returns (KeyCode name)
      else Raises (ValueError (latin "Unknown key: " ++ name))
  end.

(** Lines 91-98: the comprehension inserts the key objects in the order of
    [key_names] and stops at the first name that [key_object] refuses. *)
Fixpoint keys_dict_from (acc : gmap key bool) (key_names : list str)
  : outcome (gmap key bool) :=
  match key_names with
  | [] => Returns acc
  | name :: rest =>
      k ← key_object name;
      keys_dict_from (<[k := false]> acc) rest
  end.

Definition keys_dict (key_names : list str) : outcome (gmap key bool) :=
  keys_dict_from ∅ key_names.

(** ** Python arithmetic on the idealised numbers *)

Module Py.

Local Open Scope R_scope.

(** [a / b] on numbers: [ZeroDivisionError] when the divisor is zero. *)
Definition truediv (a b : R) : outcome R :=
  if Req_dec_T b 0 then Raises ZeroDivisionError else Returns (a / b).

(** [int(x)] of a float: truncation towards zero. *)
Definition int (x : R) : Z :=
  if Rle_dec 0 x then Int_part x else (- Int_part (- x))%Z.

(** [max(0, x)]: the first argument wins a tie. *)
Definition max0 (x : R) : R :=
  if Rlt_dec 0 x then x else 0.

End Py.

(** ** numpy pieces used by [generate_audio] *)

Module Np.

Local Open Scope R_scope.

(** [np.linspace(start, stop, num, endpoint=False)]: a negative [num] is
    refused; otherwise [step = (stop - start) / num] and the points are
    [arange(0, num) * step + start]. *)
Definition linspace (start stop : R) (num : Z) : outcome (list R) :=
  if (num <? 0)%Z then
    Raises (ValueError (latin ("Number of samples, " +:+ pretty num
                               +:+ ", must be non-negative.")))
  else
    let step := (stop - start) / IZR num in
    Returns (map (fun i : nat => INR i * step + start) (seq 0 (Z.to_nat num))).

(** [np.tile(a[:, np.newaxis], (1, reps))]: every entry becomes a row
    holding [reps] copies of it. *)
Definition tile_columns (a : list R) (reps : nat) : list (list R) :=
  map (fun v => repeat v reps) a.

(** [np.zeros((rows, cols))]. *)
Definition zeros (rows cols : nat) : list (list R) :=
  repeat (repeat 0 cols) rows.

(** [outdata[:num] = audio] for [0 <= num <= len(outdata)] and an [audio]
    of [num] rows, the only way the callback uses it: the first [num] rows
    are replaced, the others stay. *)
Definition set_head (outdata : list (list R)) (num : Z) (audio : list (list R))
  : list (list R) :=
  audio ++ drop (Z.to_nat num) outdata.

End Np.

(** ** The oscillator and the render callback ([src/main.py]) *)

Section Render.

Local Open Scope R_scope.

(** The session constants set once in the main block. *)
Variable FREQUENCY : R.
Variable VOLUME : R.
Variable SAMPLERATE : Z.
Variable CHANNELS : nat.

(** Lines 88-89: [while offset >= 1 / FREQUENCY: offset -= 1 / FREQUENCY].
    One unit of fuel pays for one evaluation of the loop test. *)
Fixpoint wrap_offset (fuel : nat) (offset : R) : outcome R :=
  match fuel with
  | O => OutOfFuel
  | S fuel' =>
      period ← Py.truediv 1 FREQUENCY;
      if Rge_dec offset period then
        period' ← Py.truediv 1 FREQUENCY;
        wrap_offset fuel' (offset - period')
      else Returns offset
  end.

(** Lines 78-92. *)
Definition generate_audio (fuel : nat) (num_samples : Z) (offset : R)
  : outcome (list (list R) * R) :=
  span ← Py.truediv (IZR num_samples) (IZR SAMPLERATE);
  t ← Np.linspace offset (span + offset) num_samples;
  advance ← Py.truediv (IZR num_samples) (IZR SAMPLERATE);
  offset' ← wrap_offset fuel (offset + advance);
  let audio := map (fun ti => sin (2 * PI * FREQUENCY * ti) * VOLUME) t in
  let audio := Np.tile_columns audio CHANNELS in
  Returns (audio, offset').

(** Line 107: [all(keys.values())]. *)
Definition gate (keys : gmap key bool) : bool :=
  bool_decide (map_Forall (fun _ v => v = true) keys).

(** Line 113: [int(((1 / FREQUENCY) - offset) * SAMPLERATE)], the number of
    samples left in the running period. *)
Definition remaining_samples (offset : R) : outcome Z :=
  period ← Py.truediv 1 FREQUENCY;
  Returns (Py.int ((period - offset) * IZR SAMPLERATE)).

(** Lines 94-122.  The global [offset] is passed in and handed back; the
    buffer [outdata] has [frames] rows of [CHANNELS] values and is returned
    as written.  Printing [status] leaves no trace here. *)
Definition audio_callback (fuel : nat) (keys : gmap key bool) (offset : R)
  (frames : nat) : outcome (list (list R) * R) :=
  if gate keys then
    '(audio, offset') ← generate_audio fuel (Z.of_nat frames) offset;
    Returns (audio, offset')
  else
    let outdata := Np.zeros frames CHANNELS in
    if Req_dec_T offset 0 then Returns (outdata, offset)
    else
      num ← remaining_samples offset;
      if (num =? 0)%Z then Returns (outdata, 0)
      else
        let num := if (num >? Z.of_nat frames)%Z then Z.of_nat frames else num in
        '(audio, new_offset) ← generate_audio fuel num offset;
        Returns (Np.set_head outdata num audio, Py.max0 new_offset).

(** The audio stream: one callback per block, in order, the offset carried
    from one to the next.  Each input is the key dictionary as the callback
    finds it and the frame count of the block. *)
Fixpoint stream (fuel : nat) (blocks : list (gmap key bool * nat)) (offset : R)
  : outcome (list (list (list R)) * R) :=
  match blocks with
  | [] => Returns ([], offset)
  | (keys, frames) :: rest =>
      '(outdata, offset') ← audio_callback fuel keys offset frames;
      '(outs, offset'') ← stream fuel rest offset';
      Returns (outdata :: outs, offset'')
  end.

(** Consecutive [generate_audio] calls, each fed the offset the one before
    returned; the sample arrays are concatenated. *)
Fixpoint generate_chain (fuel : nat) (counts : list Z) (offset : R)
  : outcome (list (list R) * R) :=
  match counts with
  | [] => Returns ([], offset)
  | n :: rest =>
      '(audio, offset') ← generate_audio fuel n offset;
      '(more, offset'') ← generate_chain fuel rest offset';
      Returns (audio ++ more, offset'')
  end.

End Render.

(** ** The same code in double precision

    Python floats are IEEE binary64 numbers, and so are the primitive floats
    used here: every operation below rounds as the machine does.  [np.sin]
    has no counterpart on them, so in this model a row of the buffer that
    holds [np.sin(2 * np.pi * FREQUENCY * t) * VOLUME] in every channel is
    recorded by its time point [Some t], and a row of zeros by [None].  What
    this model decides is how many rows are written and which offset is
    stored. *)

Module Py64.

(** [float(n)] for an integer below [2^63] in absolute value. *)
Definition of_int (n : Z) : float :=
  if (n <? 0)%Z then PrimFloat.opp (PrimFloat.of_uint63 (Uint63.of_Z (- n)))
  else PrimFloat.of_uint63 (Uint63.of_Z n).

(** [a / b] on floats: [ZeroDivisionError] when the divisor is zero. *)
Definition truediv (a b : float) : outcome float :=
  if PrimFloat.eqb b 0%float then Raises ZeroDivisionError
  else Returns (PrimFloat.div a b).

(** [a / b] on integers below [2^53] in absolute value. *)
Definition int_truediv (a b : Z) : outcome float :=
  if (b =? 0)%Z then Raises ZeroDivisionError
  else Returns (PrimFloat.div (of_int a) (of_int b)).

(** [int(x)]: the fraction is cut off; infinities and NaN are refused. *)
Definition int (x : float) : outcome Z :=
  match Prim2SF x with
  | S754_zero _ => Returns 0%Z
  | S754_finite s m e =>
      let a := match e with
               | Z0 => Zpos m
               | Zpos p => (Zpos m * Zpos (2 ^ p))%Z
               | Zneg p => (Zpos m / Zpos (2 ^ p))%Z
               end in
      Returns (if s then (- a)%Z else a)
  | S754_infinity _ => Raises OverflowError
  | S754_nan => Raises (ValueError (latin "cannot convert float NaN to integer"))
  end.


(** [round(x)]: to the nearest integer, a tie to the even one. *)
Definition round (x : float) : outcome Z :=
  match Prim2SF x with
  | S754_zero _ => Returns 0%Z
  | S754_finite s m e =>
      let a := match e with
               | Z0 => Zpos m
               | Zpos p => (Zpos m * Zpos (2 ^ p))%Z
               | Zneg p =>
                   let d := Zpos (2 ^ p) in
                   let q := (Zpos m / d)%Z in
                   let r := (2 * (Zpos m mod d))%Z in
                   if (r <? d)%Z then q
                   else if (d <? r)%Z then (q + 1)%Z
                   else if Z.even q then q else (q + 1)%Z
               end in
      Returns (if s then (- a)%Z else a)
  | S754_infinity _ => Raises OverflowError
  | S754_nan => Raises (ValueError (latin "cannot convert float NaN to integer"))
  end.

(** [max(0, x)]: [x] when [x > 0], else the first argument. *)
Definition max0 (x : float) : float :=
  if PrimFloat.ltb 0%float x then x else 0%float.

End Py64.

Module Np64.

(** [np.linspace(start, stop, num, endpoint=False)] on doubles:
    [delta = stop - start], [step = delta / num], and the points are
    [arange(0, num) * step + start], or [arange(0, num) / num * delta +
    start] when the step is zero. *)
Definition linspace (start stop : float) (num : Z) : outcome (list float) :=
  if (num <? 0)%Z then
    Raises (ValueError (latin ("Number of samples, " +:+ pretty num
                               +:+ ", must be non-negative.")))
  else
    let delta := PrimFloat.sub stop start in
    let step := PrimFloat.div delta (Py64.of_int num) in
    Returns (map (fun i : nat =>
                    let y := Py64.of_int (Z.of_nat i) in
                    let y := if PrimFloat.eqb step 0%float
                             then PrimFloat.mul (PrimFloat.div y (Py64.of_int num)) delta
                             else PrimFloat.mul y step in
                    PrimFloat.add y start)
               (seq 0 (Z.to_nat num))).

End Np64.

Section Render64.

Variable FREQUENCY : float.
Variable SAMPLERATE : Z.

(** Lines 88-89. *)
Fixpoint wrap_offset64 (fuel : nat) (offset : float) : outcome float :=
  match fuel with
  | O => OutOfFuel
  | S fuel' =>
      period ← Py64.truediv 1%float FREQUENCY;
      if PrimFloat.leb period offset then
        period' ← Py64.truediv 1%float FREQUENCY;
        wrap_offset64 fuel' (PrimFloat.sub offset period')
      else Returns offset
  end.

(** Lines 78-92, up to the time points [t] of line 86. *)
Definition generate_audio64 (fuel : nat) (num_samples : Z) (offset : float)
  : outcome (list float * float) :=
  span ← Py64.int_truediv num_samples SAMPLERATE;
  t ← Np64.linspace offset (PrimFloat.add span offset) num_samples;
  advance ← Py64.int_truediv num_samples SAMPLERATE;
  offset' ← wrap_offset64 fuel (PrimFloat.add offset advance);
  Returns (t, offset').

(** Line 113, before [int]: [((1 / FREQUENCY) - offset) * SAMPLERATE]. *)
Definition remaining_value64 (offset : float) : outcome float :=
  period ← Py64.truediv 1%float FREQUENCY;
  Returns (PrimFloat.mul (PrimFloat.sub period offset) (Py64.of_int SAMPLERATE)).

(** Line 113. *)
Definition remaining_samples64 (offset : float) : outcome Z :=
  x ← remaining_value64 offset;
  Py64.int x.

(** Lines 94-122. *)
Definition audio_callback64 (fuel : nat) (keys : gmap key bool) (offset : float)
  (frames : nat) : outcome (list (option float) * float) :=
  if gate keys then
    '(t, offset') ← generate_audio64 fuel (Z.of_nat frames) offset;
    Returns (map Some t, offset')
  else
    let outdata := repeat None frames in
    if PrimFloat.eqb offset 0%float then Returns (outdata, offset)
    else
      num ← remaining_samples64 offset;
      if (num =? 0)%Z then Returns (outdata, 0%float)
      else
        let num := if (num >? Z.of_nat frames)%Z then Z.of_nat frames else num in
        '(t, new_offset) ← generate_audio64 fuel num offset;
        Returns (map Some t ++ drop (Z.to_nat num) outdata, Py64.max0 new_offset).

(** One callback per block, the offset carried along. *)
Fixpoint stream64 (fuel : nat) (blocks : list (gmap key bool * nat))
  (offset : float) : outcome (list (list (option float)) * float) :=
  match blocks with
  | [] => Returns ([], offset)
  | (keys, frames) :: rest =>
      '(outdata, offset') ← audio_callback64 fuel keys offset frames;
      '(outs, offset'') ← stream64 fuel rest offset';
      Returns (outdata :: outs, offset'')
  end.

End Render64.

(** The runs of tone rows ([true]) and zero rows ([false]) of a buffer, with
    their lengths, in order. *)
Fixpoint runs (buffer : list (option float)) : list (bool * nat) :=
  match buffer with
  | [] => []
  | row :: rest =>
      let tone := match row with Some _ => true | None => false end in
      match runs rest with
      | (b, n) :: more =>
          if Bool.eqb b tone then (b, S n) :: more else (tone, 1%nat) :: (b, n) :: more
      | [] => [(tone, 1%nat)]
      end
  end.

(** The runs of every buffer of a stream, and the offset it ends on. *)
Definition stream_runs (r : outcome (list (list (option float)) * float))
  : outcome (list (list (bool * nat)) * float) :=
  '(outs, offset) ← r;
  Returns (map runs outs, offset).

(** The runs of the buffer of one callback, and the offset it stores. *)
Definition callback_runs (r : outcome (list (option float) * float))
  : outcome (list (bool * nat) * float) :=
  '(outdata, offset) ← r;
  Returns (runs outdata, offset).

(** Lines 62-76: the listener's handlers on the global [keys]. *)
Definition on_press (k : key) (keys : gmap key bool) : gmap key bool :=
  if decide (is_Some (keys !! k)) then <[k := true]> keys else keys.

Definition on_release (k : key) (keys : gmap key bool) : gmap key bool :=
  if decide (is_Some (keys !! k)) then <[k := false]> keys else keys.


(** ** What the specification says the oscillator emits *)

(** Frame [i] of a tone that starts at [offset]: [channels] copies of
    [sin(2 pi f (offset + i / rate)) * volume]. *)
Definition tone_frame (f vol : R) (rate : Z) (channels : nat) (offset : R)
  (i : nat) : list R :=
  repeat (sin (2 * PI * f * (offset + INR i / IZR rate)) * vol)%R channels.

Definition tone (f vol : R) (rate : Z) (channels : nat) (offset : R)
  (n : nat) : list (list R) :=
  map (tone_frame f vol rate channels offset) (seq 0 n).

(** ** Vocabulary of the statements *)

(** Frames asked for by a list of blocks. *)
Definition total_frames (blocks : list (gmap key bool * nat)) : nat :=
  list_sum (map snd blocks).

(** The gate stays open (released) over the whole list of blocks. *)
Definition released (blocks : list (gmap key bool * nat)) : Prop :=
  Forall (fun b => gate (fst b) = false) blocks.


(** A name the mapping accepts: in lower case it is a name of the table
    or one character long. *)
Definition supported (name : str) : Prop :=
  is_Some (SPECIAL_KEYS !! lower name) \/ length (lower name) = 1%nat.

(** The dictionary of the default session, [shift_r] not held. *)
Definition shift_r_up : gmap key bool := {[ Special Key.shift_r := false ]}.

(** ** The rest of [src/main.py] *)

(** Line 37, the element of the comprehension: a [Key] member has a [name];
    a [KeyCode] has none and gives its [char]. *)
Definition readable_key (k : key) : str :=
  match k with
  | Special m => Key.name m
  | KeyCode c => c
  end.

(** Lines 30-37.  [keys] is what iterating the dictionary yields: its keys,
    in insertion order. *)
Definition get_readable_keys (keys : list key) : list str :=
  map readable_key keys.

(** The order in which the dictionary of [keys_dict] (lines 91-98) iterates:
    a Python dict yields its keys in the order of their first insertion, and
    storing under a key it already holds leaves that order alone. *)
Fixpoint keys_order_from (acc : list key) (key_names : list str)
  : outcome (list key) :=
  match key_names with
  | [] => Returns acc
  | name :: rest =>
      k ← key_object name;
      keys_order_from (if decide (k ∈ acc) then acc else acc ++ [k]) rest
  end.

Definition keys_order (key_names : list str) : outcome (list key) :=
  keys_order_from [] key_names.

(** What one [int(input(...))] of line 52 comes to: a number, or text that
    [int] refuses with [ValueError]. *)
Inductive reply : Type :=
| Number (n : Z)
| NotANumber.

(** How the choice of a device ends: with a device index, with
    [exit(status)], with an exception of the main block, or with [input]
    finding the standard input closed ([EOFError], which line 56 does not
    catch). *)
Inductive selection : Type :=
| Selected (device : Z)
| Exits (status : Z)
| Fails (e : exn)
| EndOfInput.

(** Line 48. *)
Definition max_retries : nat := 5.

(** Lines 50-60: the loop of [choose_device] from a given count of retries.
    [devices] is [len(devices)]; [replies] are the operator's answers, one
    per prompt.  The lines the function prints are left out. *)
Fixpoint choose_device_from (devices : nat) (retries : nat) (replies : list reply)
  : selection :=
  if (retries <? max_retries)%nat then
    match replies with
    | [] => EndOfInput
    | Number output_device :: rest =>
        if ((output_device <? 0) || (output_device >=? Z.of_nat devices))%Z
        then choose_device_from devices (S retries) rest
        else Selected output_device
    | NotANumber :: rest => choose_device_from devices (S retries) rest
    end
  else Exits 1.

(** Lines 40-60. *)
Definition choose_device (devices : nat) (replies : list reply) : selection :=
  choose_device_from devices 0 replies.

(** Lines 169-172 of the main block: [OUTPUT_DEVICE] is the value of the
    [--device] flag, [None] when the flag is absent. *)
Definition select_device (devices : nat) (OUTPUT_DEVICE : option Z)
  (replies : list reply) : selection :=
  match OUTPUT_DEVICE with
  | None => choose_device devices replies
  | Some d =>
      if ((d <? 0) || (d >=? Z.of_nat devices))%Z
      then Fails (ValueError (latin "Invalid device number"))
      else Selected d
  end.

(** What the listener delivers: the handlers are called one event at a
    time, in the order of the events. *)
Inductive event : Type :=
| Pressed (k : key)
| Released (k : key).

Definition deliver (e : event) (keys : gmap key bool) : gmap key bool :=
  match e with
  | Pressed k => on_press k keys
  | Released k => on_release k keys
  end.

Definition listen (events : list event) (keys : gmap key bool) : gmap key bool :=
  fold_left (fun ks e => deliver e ks) events keys.

(** The latest event for [k] in a list of events, if there is one:
    [Some true] for a press, [Some false] for a release. *)
Fixpoint latest (k : key) (events : list event) : option bool :=
  match events with
  | [] => None
  | e :: rest =>
      match latest k rest with
      | Some b => Some b
      | None =>
          match e with
          | Pressed k' => if decide (k' = k) then Some true else None
          | Released k' => if decide (k' = k) then Some false else None
          end
      end
  end.

(** The gate is held (asserted) over the whole list of blocks. *)
Definition held (blocks : list (gmap key bool * nat)) : Prop :=
  Forall (fun b => gate (fst b) = true) blocks.

(** A reply that [choose_device] turns down: text that is no number, or a
    number that is no index into the [devices] devices. *)
Definition turned_down (devices : nat) (r : reply) : Prop :=
  match r with
  | Number n => (n < 0 \/ Z.of_nat devices <= n)%Z
  | NotANumber => True
  end.

(** A buffer of rows of [channels] values, none larger in absolute value
    than the volume. *)
Definition well_formed (vol : R) (channels : nat) (buffer : list (list R)) : Prop :=
  Forall (fun row => length row = channels
                     /\ Forall (fun v => (Rabs v <= Rabs vol)%R) row) buffer.

(** The dictionary of the default session, [shift_r] held. *)
Definition shift_r_down : gmap key bool := {[ Special Key.shift_r := true ]}.

(** * Properties *)

(** ** The definitions at work *)

Example key_object_shift_r : key_object (latin "Shift_R") = Returns (Special Key.shift_r).
Proof. vm_compute. reflexivity. Qed.

Example key_object_letter : key_object (latin "Q") = Returns (KeyCode (latin "q")).
Proof. vm_compute. reflexivity. Qed.

Example key_object_word :
  key_object (latin "Hello") = Raises (ValueError (latin "Unknown key: hello")).
Proof. vm_compute. reflexivity. Qed.

Example key_object_empty : key_object (latin "") = Raises (ValueError (latin "Unknown key: ")).
Proof. vm_compute. reflexivity. Qed.

(** An alias: [shift_l] is the member [shift], and is shown as [shift]. *)
Example key_object_alias :
  key_object (latin "shift_l") = Returns (Special Key.shift)
  /\ key_object (latin "shift") = Returns (Special Key.shift)
  /\ get_readable_keys [Special Key.shift] = [latin "shift"].
Proof. split; [| split]; vm_compute; reflexivity. Qed.

Example keys_dict_default : keys_dict [latin "shift_r"] = Returns shift_r_up.
Proof.
  unfold keys_dict. cbn [keys_dict_from].
  replace (key_object (latin "shift_r")) with (Returns (Special Key.shift_r))
    by (vm_compute; reflexivity).
  cbn [mbind outcome_bind]. rewrite insert_empty. reflexivity.
Qed.

Example keys_dict_twice :
  keys_dict [latin "a"; latin "A"] = Returns {[ KeyCode (latin "a") := false ]}.
Proof.
  unfold keys_dict. cbn [keys_dict_from].
  replace (key_object (latin "a")) with (Returns (KeyCode (latin "a"))) by (vm_compute; reflexivity).
  replace (key_object (latin "A")) with (Returns (KeyCode (latin "a"))) by (vm_compute; reflexivity).
  cbn [mbind outcome_bind]. rewrite insert_insert_eq, insert_empty. reflexivity.
Qed.

Example gate_of_nothing : gate ∅ = true.
Proof. apply bool_decide_eq_true. apply map_Forall_empty. Qed.

Section PyFacts.

Local Open Scope R_scope.

Lemma truediv_ok (a b : R) : b <> 0 -> Py.truediv a b = Returns (a / b).
Proof.
  intros Hb. unfold Py.truediv. destruct (Req_dec_T b 0); [contradiction | reflexivity].
Qed.

(** [int] of a non-negative number is its floor. *)
Lemma int_floor (x : R) :
  0 <= x -> IZR (Py.int x) <= x < IZR (Py.int x) + 1.
Proof.
  intros Hx. unfold Py.int. destruct (Rle_dec 0 x); [| contradiction].
  destruct (base_Int_part x) as [Hlo Hhi]. lra.
Qed.

Lemma int_unique (x : R) (z : Z) :
  0 <= x -> IZR z <= x < IZR z + 1 -> Py.int x = z.
Proof.
  intros Hx [Hlo Hhi]. destruct (int_floor x Hx) as [Hlo' Hhi'].
  assert (H1 : IZR (Py.int x) < IZR (z + 1)) by (rewrite plus_IZR; lra).
  assert (H2 : IZR z < IZR (Py.int x + 1)) by (rewrite plus_IZR; lra).
  apply lt_IZR in H1, H2. lia.
Qed.

Lemma int_nonneg (x : R) : 0 <= x -> (0 <= Py.int x)%Z.
Proof.
  intros Hx. destruct (int_floor x Hx) as [_ Hhi].
  assert (H : IZR (-1) < IZR (Py.int x)) by (simpl; lra).
  apply lt_IZR in H. lia.
Qed.

Example int_positive : Py.int (5 / 2) = 2%Z.
Proof. apply int_unique; lra. Qed.

Example int_negative : Py.int (- 5 / 2) = (- 2)%Z.
Proof.
  unfold Py.int. destruct (Rle_dec 0 (- 5 / 2)) as [H | _]; [lra |].
  rewrite <- (Int_part_spec (- (- 5 / 2)) 2); [reflexivity | lra].
Qed.

Lemma max0_nonneg (x : R) : 0 <= x -> Py.max0 x = x.
Proof.
  intros Hx. unfold Py.max0. destruct (Rlt_dec 0 x); lra.
Qed.

End PyFacts.

Lemma seq_shifted (n s m : nat) : seq (n + s) m = map (Nat.add n) (seq s m).
Proof.
  revert s. induction m as [| m IH]; intros s; [reflexivity |].
  cbn [seq map]. f_equal. rewrite <- IH. f_equal. lia.
Qed.

Section OscillatorFacts.

Local Open Scope R_scope.

Variable FREQUENCY : R.
Variable VOLUME : R.
Variable SAMPLERATE : Z.
Variable CHANNELS : nat.

Hypothesis frequency_pos : 0 < FREQUENCY.
Hypothesis samplerate_pos : (0 < SAMPLERATE)%Z.

Let period : R := 1 / FREQUENCY.

Lemma period_pos : 0 < period.
Proof using frequency_pos.
  unfold period. apply Rdiv_lt_0_compat; lra.
Qed.

Lemma rate_pos : 0 < IZR SAMPLERATE.
Proof using samplerate_pos. apply IZR_lt. exact samplerate_pos. Qed.

(** With fuel for more loop tests than periods fit below [x], the loop
    leaves after [k] subtractions with the offset in [[0, period)]. *)
Lemma wrap_offset_spec (fuel : nat) :
  forall x : R, 0 <= x -> x < INR fuel * period ->
  exists k : nat,
    wrap_offset FREQUENCY fuel x = Returns (x - INR k * period)
    /\ 0 <= x - INR k * period < period.
Proof using frequency_pos.
  pose proof period_pos as Hp.
  induction fuel as [| fuel IH]; intros x Hx Hfuel.
  - simpl in Hfuel. lra.
  - cbn [wrap_offset]. rewrite truediv_ok by lra. cbn.
    fold period. destruct (Rge_dec x period) as [Hge | Hlt].
    + rewrite S_INR in Hfuel.
      destruct (IH (x - period)) as [k [Hk Hrange]]; [lra | lra |].
      exists (S k). rewrite S_INR.
      replace (x - (INR k + 1) * period) with (x - period - INR k * period) by lra.
      split; assumption.
    + exists 0%nat. simpl. replace (x - 0 * period) with x by lra.
      split; [reflexivity | lra].
Qed.

(** Some amount of fuel is always enough. *)
Lemma fuel_exists (x : R) : exists fuel : nat, x < INR fuel * period.
Proof using frequency_pos.
  pose proof period_pos as Hp.
  destruct (INR_unbounded (x / period)) as [n Hn].
  exists n. apply (Rmult_lt_compat_r period) in Hn; [| exact Hp].
  unfold Rdiv in Hn. rewrite Rmult_assoc, Rinv_l in Hn by lra. lra.
Qed.

(** The time points of line 86 are [offset + i / SAMPLERATE]. *)
Lemma linspace_points (n : nat) (offset : R) :
  Np.linspace offset (IZR (Z.of_nat n) / IZR SAMPLERATE + offset) (Z.of_nat n)
  = Returns (map (fun i : nat => offset + INR i / IZR SAMPLERATE) (seq 0 n)).
Proof using samplerate_pos.
  pose proof rate_pos as Hr.
  unfold Np.linspace.
  destruct (Z.ltb_spec (Z.of_nat n) 0) as [Hneg | _]; [lia |].
  rewrite Nat2Z.id. f_equal. apply map_ext_in. intros i Hi.
  apply in_seq in Hi. rewrite <- INR_IZR_INZ.
  assert (Hn : 0 < INR n) by (apply lt_0_INR; lia).
  field. split; lra.
Qed.

(** One call: the frames are the tone from [offset], and the returned
    offset is the advanced one minus a whole number of periods. *)
Lemma generate_audio_spec (fuel n : nat) (offset : R) :
  0 <= offset -> offset + INR n / IZR SAMPLERATE < INR fuel * period ->
  exists k : nat,
    generate_audio FREQUENCY VOLUME SAMPLERATE CHANNELS fuel (Z.of_nat n) offset
    = Returns (tone FREQUENCY VOLUME SAMPLERATE CHANNELS offset n,
               offset + INR n / IZR SAMPLERATE - INR k * period)
    /\ 0 <= offset + INR n / IZR SAMPLERATE - INR k * period < period.
Proof using frequency_pos samplerate_pos.
  intros Hoff Hfuel. pose proof rate_pos as Hr.
  assert (Hn : 0 <= INR n) by apply pos_INR.
  assert (Hadv : 0 <= INR n / IZR SAMPLERATE)
    by (apply Rmult_le_pos; [exact Hn | left; apply Rinv_0_lt_compat; exact Hr]).
  unfold generate_audio. rewrite !truediv_ok by lra. cbn.
  rewrite linspace_points. cbn. rewrite <- INR_IZR_INZ.
  destruct (wrap_offset_spec fuel (offset + INR n / IZR SAMPLERATE))
    as [k [Hk Hrange]]; [lra | exact Hfuel |].
  exists k. rewrite Hk. cbn. split; [| exact Hrange].
  unfold Np.tile_columns, tone. rewrite ?map_map. reflexivity.
Qed.

(** Two offsets in [[0, period)] that differ from the same number by whole
    periods are the same offset. *)
Lemma residue_unique (x : R) (j k : nat) :
  0 <= x - INR j * period < period -> 0 <= x - INR k * period < period ->
  x - INR j * period = x - INR k * period.
Proof using frequency_pos.
  pose proof period_pos as Hp. intros Hj Hk.
  destruct (Nat.lt_trichotomy j k) as [Hlt | [Heq | Hgt]].
  - apply Nat.le_succ_l, le_INR in Hlt. rewrite S_INR in Hlt.
    assert (0 <= (INR k - (INR j + 1)) * period) by (apply Rmult_le_pos; lra).
    lra.
  - subst. reflexivity.
  - apply Nat.le_succ_l, le_INR in Hgt. rewrite S_INR in Hgt.
    assert (0 <= (INR j - (INR k + 1)) * period) by (apply Rmult_le_pos; lra).
    lra.
Qed.

(** The tone does not change when its start moves by whole periods. *)
Lemma tone_period (offset : R) (k n : nat) :
  tone FREQUENCY VOLUME SAMPLERATE CHANNELS (offset - INR k * period) n
  = tone FREQUENCY VOLUME SAMPLERATE CHANNELS offset n.
Proof using frequency_pos.
  unfold tone. apply map_ext. intros i. unfold tone_frame. do 2 f_equal.
  rewrite <- (sin_period (2 * PI * FREQUENCY
                          * (offset - INR k * period + INR i / IZR SAMPLERATE)) k).
  f_equal. generalize (INR i / IZR SAMPLERATE). intros a.
  unfold period. field. lra.
Qed.

(** A tone of [n + m] frames is a tone of [n] frames followed by the tone
    that starts [n] sample times later. *)
Lemma tone_app (offset : R) (n m : nat) :
  tone FREQUENCY VOLUME SAMPLERATE CHANNELS offset (n + m)
  = tone FREQUENCY VOLUME SAMPLERATE CHANNELS offset n
    ++ tone FREQUENCY VOLUME SAMPLERATE CHANNELS
         (offset + INR n / IZR SAMPLERATE) m.
Proof using samplerate_pos.
  pose proof rate_pos as Hr.
  unfold tone. rewrite seq_app, map_app. f_equal.
  rewrite Nat.add_0_l, <- (Nat.add_0_r n) at 1.
  rewrite seq_shifted, map_map. apply map_ext. intros i.
  unfold tone_frame. do 3 f_equal.
  rewrite plus_INR. field. lra.
Qed.

Lemma tone_length (offset : R) (n : nat) :
  length (tone FREQUENCY VOLUME SAMPLERATE CHANNELS offset n) = n.
Proof using Type. unfold tone. rewrite length_map. apply length_seq. Qed.

End OscillatorFacts.

(** ** The oscillator *)

Section OscillatorTheorems.

Local Open Scope R_scope.

Variable FREQUENCY : R.
Variable VOLUME : R.
Variable SAMPLERATE : Z.
Variable CHANNELS : nat.

Lemma fuel_le_bound (fuel0 fuel : nat) (x p : R) :
  0 < p -> x < INR fuel0 * p -> (fuel0 <= fuel)%nat -> x < INR fuel * p.
Proof.
  intros Hp Hx Hle. apply le_INR in Hle.
  assert (0 <= (INR fuel - INR fuel0) * p) by (apply Rmult_le_pos; lra).
  lra.
Qed.

(** The chain of calls emits the tone of the summed count, and ends at the
    offset a single call for that count would return. *)
Lemma generate_chain_spec (fuel : nat) (counts : list nat) :
  0 < FREQUENCY -> (0 < SAMPLERATE)%Z ->
  forall offset : R,
  0 <= offset < 1 / FREQUENCY ->
  1 / FREQUENCY + INR (list_sum counts) / IZR SAMPLERATE
    < INR fuel * (1 / FREQUENCY) ->
  exists k : nat,
    generate_chain FREQUENCY VOLUME SAMPLERATE CHANNELS fuel
      (map Z.of_nat counts) offset
    = Returns (tone FREQUENCY VOLUME SAMPLERATE CHANNELS offset (list_sum counts),
               offset + INR (list_sum counts) / IZR SAMPLERATE
               - INR k * (1 / FREQUENCY))
    /\ 0 <= offset + INR (list_sum counts) / IZR SAMPLERATE
            - INR k * (1 / FREQUENCY) < 1 / FREQUENCY.
Proof.
  intros Hf Hr. pose proof (rate_pos SAMPLERATE Hr) as Hr'.
  induction counts as [| n counts IH]; intros offset Hoff Hfuel.
  - exists 0%nat.
    assert (E : offset + INR (list_sum []) / IZR SAMPLERATE
                - INR 0 * (1 / FREQUENCY) = offset) by (simpl; lra).
    rewrite E. split; [reflexivity | exact Hoff].
  - cbn [map generate_chain].
    change (list_sum (n :: counts)) with (n + list_sum counts)%nat in *.
    rewrite plus_INR in Hfuel.
    assert (Hn : 0 <= INR n / IZR SAMPLERATE)
      by (apply Rmult_le_pos; [apply pos_INR | left; apply Rinv_0_lt_compat; exact Hr']).
    assert (Hs : 0 <= INR (list_sum counts) / IZR SAMPLERATE)
      by (apply Rmult_le_pos; [apply pos_INR | left; apply Rinv_0_lt_compat; exact Hr']).
    unfold Rdiv in Hfuel at 2. rewrite Rmult_plus_distr_r in Hfuel.
    fold (INR n / IZR SAMPLERATE) in Hfuel.
    fold (INR (list_sum counts) / IZR SAMPLERATE) in Hfuel.
    destruct (generate_audio_spec FREQUENCY VOLUME SAMPLERATE CHANNELS Hf Hr
                fuel n offset) as [k1 [Hgen Hrange1]]; [lra | lra |].
    rewrite Hgen. cbn.
    destruct (IH _ Hrange1) as [k2 [Hrest Hrange2]]; [lra |].
    rewrite Hrest. cbn.
    exists (k1 + k2)%nat. rewrite !plus_INR.
    rewrite (tone_period FREQUENCY VOLUME SAMPLERATE CHANNELS Hf), <- (tone_app _ _ _ _ Hr).
    replace (offset + (INR n + INR (list_sum counts)) / IZR SAMPLERATE
             - (INR k1 + INR k2) * (1 / FREQUENCY))
      with (offset + INR n / IZR SAMPLERATE - INR k1 * (1 / FREQUENCY)
            + INR (list_sum counts) / IZR SAMPLERATE - INR k2 * (1 / FREQUENCY))
      by (field; lra).
    split; [reflexivity | exact Hrange2].
Qed.

Lemma nonneg_counts (counts : list Z) :
  Forall (fun n => (0 <= n)%Z) counts ->
  counts = map Z.of_nat (map Z.to_nat counts)
  /\ fold_right Z.add 0%Z counts = Z.of_nat (list_sum (map Z.to_nat counts)).
Proof.
  induction 1 as [| n counts Hn _ [IH1 IH2]]; [split; reflexivity |].
  cbn [map fold_right]. rewrite <- IH1, IH2.
  change (list_sum (Z.to_nat n :: map Z.to_nat counts))
    with (Z.to_nat n + list_sum (map Z.to_nat counts))%nat.
  split; [f_equal |]; lia.
Qed.

(** C1 (phase continuity).  For a positive frequency and sample rate and a
    start offset in [[0, period)], cut a sample count into any list of
    non-negative counts and call [generate_audio] once per count, each call
    starting at the offset the call before returned: with enough fuel the
    concatenated frames are the frames of the single call for the summed
    count from the same start offset, and both end at the same offset.  On
    the real numbers the two streams are equal, not only close. *)
Theorem phase_continuity (counts : list Z) (offset : R) :
  0 < FREQUENCY -> (0 < SAMPLERATE)%Z ->
  0 <= offset < 1 / FREQUENCY ->
  Forall (fun n => (0 <= n)%Z) counts ->
  exists fuel0 : nat, forall fuel : nat, (fuel0 <= fuel)%nat ->
  exists (audio : list (list R)) (offset' : R),
    generate_chain FREQUENCY VOLUME SAMPLERATE CHANNELS fuel counts offset
    = Returns (audio, offset')
    /\ generate_audio FREQUENCY VOLUME SAMPLERATE CHANNELS fuel
         (fold_right Z.add 0%Z counts) offset
       = Returns (audio, offset').
Proof.
  intros Hf Hr Hoff Hcounts.
  destruct (nonneg_counts counts Hcounts) as [Hmap Hsum].
  set (ns := map Z.to_nat counts) in *. set (total := list_sum ns) in *.
  pose proof (period_pos FREQUENCY Hf) as Hp.
  destruct (fuel_exists FREQUENCY Hf
              (1 / FREQUENCY + INR total / IZR SAMPLERATE)) as [fuel0 Hfuel0].
  exists fuel0. intros fuel Hle.
  pose proof (fuel_le_bound fuel0 fuel _ _ Hp Hfuel0 Hle) as Hfuel.
  destruct (generate_chain_spec fuel ns Hf Hr offset Hoff Hfuel)
    as [k1 [Hchain Hrange1]].
  destruct (generate_audio_spec FREQUENCY VOLUME SAMPLERATE CHANNELS Hf Hr
              fuel total offset) as [k2 [Hone Hrange2]]; [lra | lra |].
  rewrite Hsum, Hmap, Hchain, Hone.
  rewrite (residue_unique FREQUENCY Hf _ k2 k1 Hrange2 Hrange1).
  eexists; eexists; split; reflexivity.
Qed.

(** C2 (oscillator output).  For a positive frequency and sample rate, a
    count [num_samples >= 0] and a start offset in [[0, period)], the call
    returns (with enough fuel) exactly [num_samples] frames, frame [i] being
    [CHANNELS] copies of [sin(2 pi FREQUENCY (offset + i / SAMPLERATE)) *
    VOLUME]: the time points start at [offset], lie [1 / SAMPLERATE] apart,
    and the last one is [offset + (num_samples - 1) / SAMPLERATE]. *)
Theorem generate_audio_frames (num_samples : Z) (offset : R) :
  0 < FREQUENCY -> (0 < SAMPLERATE)%Z ->
  (0 <= num_samples)%Z ->
  0 <= offset < 1 / FREQUENCY ->
  exists fuel0 : nat, forall fuel : nat, (fuel0 <= fuel)%nat ->
  exists (audio : list (list R)) (offset' : R),
    generate_audio FREQUENCY VOLUME SAMPLERATE CHANNELS fuel num_samples offset
    = Returns (audio, offset')
    /\ length audio = Z.to_nat num_samples
    /\ forall i : nat, (i < Z.to_nat num_samples)%nat ->
       audio !! i
       = Some (repeat (sin (2 * PI * FREQUENCY * (offset + INR i / IZR SAMPLERATE))
                       * VOLUME) CHANNELS).
Proof.
  intros Hf Hr Hnum Hoff.
  pose proof (period_pos FREQUENCY Hf) as Hp.
  set (n := Z.to_nat num_samples).
  destruct (fuel_exists FREQUENCY Hf (offset + INR n / IZR SAMPLERATE))
    as [fuel0 Hfuel0].
  exists fuel0. intros fuel Hle.
  pose proof (fuel_le_bound fuel0 fuel _ _ Hp Hfuel0 Hle) as Hfuel.
  destruct (generate_audio_spec FREQUENCY VOLUME SAMPLERATE CHANNELS Hf Hr
              fuel n offset) as [k [Hgen _]]; [lra | exact Hfuel |].
  replace (Z.of_nat n) with num_samples in Hgen by (unfold n; lia).
  eexists; eexists. split; [exact Hgen |]. split; [apply tone_length |].
  intros i Hi. unfold tone. rewrite list_lookup_fmap.
  rewrite lookup_seq_lt by exact Hi. reflexivity.
Qed.

(** C7 (zero samples).  For a start offset in [[0, period)], a call for no
    samples returns the empty array and the offset as it was; it raises
    nothing and the loop test is evaluated once. *)
Theorem generate_audio_zero (fuel : nat) (offset : R) :
  0 < FREQUENCY -> (0 < SAMPLERATE)%Z ->
  0 <= offset < 1 / FREQUENCY ->
  (1 <= fuel)%nat ->
  generate_audio FREQUENCY VOLUME SAMPLERATE CHANNELS fuel 0 offset
  = Returns ([], offset).
Proof.
  intros Hf Hr Hoff Hfuel. pose proof (rate_pos SAMPLERATE Hr) as Hr'.
  destruct fuel as [| fuel]; [lia |].
  unfold generate_audio. rewrite !truediv_ok by lra. cbn.
  rewrite truediv_ok by lra. cbn.
  assert (E : offset + 0 / IZR SAMPLERATE = offset) by lra. rewrite E.
  destruct (Rge_dec offset (1 / FREQUENCY)); [lra | reflexivity].
Qed.

End OscillatorTheorems.

(** ** Where the oscillator does not return *)

Section OscillatorEdges.

Local Open Scope R_scope.

Variable FREQUENCY : R.
Variable VOLUME : R.
Variable SAMPLERATE : Z.
Variable CHANNELS : nat.

(** A negative frequency makes the period negative: the loop test holds
    for every offset from the period up, and subtracting the period only
    raises the offset.  No amount of fuel is enough. *)
Lemma wrap_offset_spins (fuel : nat) :
  FREQUENCY < 0 ->
  forall x : R, 1 / FREQUENCY <= x -> wrap_offset FREQUENCY fuel x = OutOfFuel.
Proof.
  intros Hf. assert (Hp : 1 / FREQUENCY < 0).
  { unfold Rdiv. rewrite Rmult_1_l. apply Rinv_lt_0_compat. exact Hf. }
  induction fuel as [| fuel IH]; intros x Hx; [reflexivity |].
  cbn [wrap_offset]. rewrite truediv_ok by lra. cbn [mbind outcome_bind].
  destruct (Rge_dec x (1 / FREQUENCY)) as [_ | Hlt]; [| lra].
  apply IH. lra.
Qed.

(** A zero sample rate stops line 86 at the division. *)
Lemma generate_audio_zero_rate (fuel : nat) (num_samples : Z) (offset : R) :
  SAMPLERATE = 0%Z ->
  generate_audio FREQUENCY VOLUME SAMPLERATE CHANNELS fuel num_samples offset
  = Raises ZeroDivisionError.
Proof.
  intros ->. unfold generate_audio, Py.truediv.
  destruct (Req_dec_T 0 0) as [_ | Hne]; [reflexivity | contradiction].
Qed.

(** A negative count is refused by [np.linspace]. *)
Lemma generate_audio_negative (fuel : nat) (num_samples : Z) (offset : R) :
  SAMPLERATE <> 0%Z -> (num_samples < 0)%Z ->
  exists msg : str,
    generate_audio FREQUENCY VOLUME SAMPLERATE CHANNELS fuel num_samples offset
    = Raises (ValueError msg).
Proof.
  intros Hr Hneg. unfold generate_audio.
  rewrite truediv_ok by (intros H; apply eq_IZR in H; contradiction).
  cbn [mbind outcome_bind]. unfold Np.linspace.
  destruct (Z.ltb_spec num_samples 0) as [_ | Hge]; [| lia].
  eexists. reflexivity.
Qed.

End OscillatorEdges.

(** ** The render callback *)

Section RenderFacts.

Local Open Scope R_scope.

Variable FREQUENCY : R.
Variable VOLUME : R.
Variable SAMPLERATE : Z.
Variable CHANNELS : nat.

Hypothesis frequency_pos : 0 < FREQUENCY.
Hypothesis samplerate_pos : (0 < SAMPLERATE)%Z.

Lemma div_le (a b s : R) : 0 < s -> a <= b * s -> a / s <= b.
Proof using Type.
  intros Hs H. apply (Rmult_le_reg_r s); [exact Hs |].
  unfold Rdiv. rewrite Rmult_assoc, Rinv_l by lra. lra.
Qed.


Lemma zeros_app (a b : nat) :
  Np.zeros a CHANNELS ++ Np.zeros b CHANNELS = Np.zeros (a + b) CHANNELS.
Proof using Type. unfold Np.zeros. symmetry. apply repeat_app. Qed.

Lemma zeros_length (a : nat) : length (Np.zeros a CHANNELS) = a.
Proof using Type. apply repeat_length. Qed.

Lemma drop_zeros (m a : nat) :
  drop m (Np.zeros a CHANNELS) = Np.zeros (a - m) CHANNELS.
Proof using Type.
  unfold Np.zeros. revert a. induction m as [| m IH]; intros a.
  - rewrite Nat.sub_0_r. reflexivity.
  - destruct a as [| a]; [reflexivity |]. cbn [repeat drop]. apply IH.
Qed.

(** The count of line 113 is the integer part of the samples left in the
    period. *)
Lemma remaining_samples_floor (offset : R) :
  0 <= offset < 1 / FREQUENCY ->
  exists num : Z,
    remaining_samples FREQUENCY SAMPLERATE offset = Returns num
    /\ (0 <= num)%Z
    /\ IZR num <= (1 / FREQUENCY - offset) * IZR SAMPLERATE < IZR num + 1.
Proof using frequency_pos samplerate_pos.
  intros Hoff. pose proof (rate_pos SAMPLERATE samplerate_pos) as Hr.
  unfold remaining_samples. rewrite truediv_ok by lra. cbn.
  assert (Hx : 0 <= (1 / FREQUENCY - offset) * IZR SAMPLERATE)
    by (apply Rmult_le_pos; lra).
  eexists. split; [reflexivity |].
  split; [apply int_nonneg | apply int_floor]; exact Hx.
Qed.

(** A callback that finds the gate open and the offset at 0 writes silence
    and keeps the offset. *)
Lemma callback_rest (fuel : nat) (keys : gmap key bool) (frames : nat) :
  gate keys = false ->
  audio_callback FREQUENCY VOLUME SAMPLERATE CHANNELS fuel keys 0 frames
  = Returns (Np.zeros frames CHANNELS, 0).
Proof using Type.
  intros Hgate. unfold audio_callback. rewrite Hgate.
  destruct (Req_dec_T 0 0) as [_ | Hne]; [reflexivity | contradiction].
Qed.

(** One release-tail callback: it writes [m] tone frames and then zeros,
    never more than the samples left in the period, and leaves an offset
    from which nothing or the rest of the period follows. *)
Lemma release_step (fuel : nat) (keys : gmap key bool) (offset : R) (frames : nat) :
  gate keys = false -> 0 < offset < 1 / FREQUENCY -> (2 <= fuel)%nat ->
  exists (m : nat) (offset' : R),
    audio_callback FREQUENCY VOLUME SAMPLERATE CHANNELS fuel keys offset frames
    = Returns (tone FREQUENCY VOLUME SAMPLERATE CHANNELS offset m
               ++ Np.zeros (frames - m) CHANNELS, offset')
    /\ (m <= frames)%nat
    /\ INR m <= (1 / FREQUENCY - offset) * IZR SAMPLERATE
    /\ 0 <= offset' < 1 / FREQUENCY
    /\ (offset' = 0 \/ offset' = offset + INR m / IZR SAMPLERATE)
    /\ ((m < frames)%nat ->
        offset' = 0 \/ (1 / FREQUENCY - offset') * IZR SAMPLERATE < 1)
    /\ ((1 / FREQUENCY - offset) * IZR SAMPLERATE < 1 -> offset' = 0).
Proof using frequency_pos samplerate_pos.
  intros Hgate Hoff Hfuel.
  pose proof (rate_pos SAMPLERATE samplerate_pos) as Hr.
  pose proof (period_pos FREQUENCY frequency_pos) as Hp.
  unfold audio_callback. rewrite Hgate.
  destruct (Req_dec_T offset 0) as [H0 | _]; [lra |].
  destruct (remaining_samples_floor offset) as [num [Hnum [Hnn Hfloor]]]; [lra |].
  rewrite Hnum. cbn.
  destruct (Z.eqb_spec num 0) as [Hz | Hnz].
  - exists 0%nat, 0. subst num. cbn [tone seq map app]. rewrite Nat.sub_0_r.
    simpl in Hfloor. simpl. repeat split; try lra; try lia; auto.
  - assert (Hone : 1 <= (1 / FREQUENCY - offset) * IZR SAMPLERATE).
    { apply Rle_trans with (IZR num); [apply IZR_le; lia | lra]. }
    set (m := Z.to_nat (Z.min num (Z.of_nat frames))).
    assert (Hm : (if (num >? Z.of_nat frames)%Z then Z.of_nat frames else num)
                 = Z.of_nat m).
    { rewrite Z.gtb_ltb. unfold m.
      destruct (Z.ltb_spec (Z.of_nat frames) num); lia. }
    rewrite Hm.
    assert (Hmle : INR m <= (1 / FREQUENCY - offset) * IZR SAMPLERATE).
    { rewrite INR_IZR_INZ. apply Rle_trans with (IZR num); [| lra].
      apply IZR_le. unfold m. lia. }
    assert (Hadv : offset + INR m / IZR SAMPLERATE <= 1 / FREQUENCY).
    { pose proof (div_le _ _ _ Hr Hmle). lra. }
    assert (Hfuel' : offset + INR m / IZR SAMPLERATE < INR fuel * (1 / FREQUENCY)).
    { apply le_INR in Hfuel. simpl in Hfuel.
      assert (0 <= (INR fuel - 2) * (1 / FREQUENCY)) by (apply Rmult_le_pos; lra).
      lra. }
    destruct (generate_audio_spec FREQUENCY VOLUME SAMPLERATE CHANNELS
                frequency_pos samplerate_pos fuel m offset)
      as [k [Hgen Hrange]]; [lra | exact Hfuel' |].
    rewrite Hgen. cbn.
    set (offset' := offset + INR m / IZR SAMPLERATE - INR k * (1 / FREQUENCY)) in *.
    exists m, offset'.
    assert (Hk : offset' = 0 \/ offset' = offset + INR m / IZR SAMPLERATE).
    { destruct k as [| k].
      - right. unfold offset'. simpl. lra.
      - left. unfold offset' in *. rewrite S_INR in *.
        pose proof (pos_INR k) as Hk.
        assert (0 <= INR k * (1 / FREQUENCY)) by (apply Rmult_le_pos; lra).
        lra. }
    rewrite max0_nonneg by lra.
    unfold Np.set_head. rewrite Nat2Z.id, drop_zeros.
    repeat split; try lra; try assumption.
    + unfold m. lia.
    + intros Hlt. destruct Hk as [Hk | Hk]; [left; exact Hk | right].
      assert (Hmn : Z.of_nat m = num) by (unfold m in *; lia).
      rewrite Hk. rewrite INR_IZR_INZ, Hmn.
      replace ((1 / FREQUENCY - (offset + IZR num / IZR SAMPLERATE)) * IZR SAMPLERATE)
        with ((1 / FREQUENCY - offset) * IZR SAMPLERATE - IZR num) by (field; lra).
      lra.
Qed.

End RenderFacts.

Section RenderTheorems.

Local Open Scope R_scope.

Variable FREQUENCY : R.
Variable VOLUME : R.
Variable SAMPLERATE : Z.
Variable CHANNELS : nat.

(** From offset 0 a released stream is silence and the offset stays 0. *)
Lemma stream_rest (fuel : nat) (blocks : list (gmap key bool * nat)) :
  released blocks ->
  stream FREQUENCY VOLUME SAMPLERATE CHANNELS fuel blocks 0
  = Returns (map (fun b => Np.zeros (snd b) CHANNELS) blocks, 0).
Proof.
  induction 1 as [| [keys frames] blocks Hgate _ IH]; [reflexivity |].
  cbn [stream map snd]. simpl in Hgate.
  rewrite callback_rest by exact Hgate. cbn. rewrite IH. reflexivity.
Qed.

(** C3 (offset invariant).  With a positive frequency and sample rate and
    an offset in [[0, period)]: [generate_audio] returns, for every count
    [num_samples >= 0], an offset in [[0, period)], so never a negative one;
    and whatever the keys and the block size, the offset the callback
    stores (gate held; gate released with the offset at 0, with no sample
    left, or after the tail and the floor at 0) is in [[0, period)]. *)
Theorem offset_invariant (offset : R) :
  0 < FREQUENCY -> (0 < SAMPLERATE)%Z ->
  0 <= offset < 1 / FREQUENCY ->
  (forall num_samples : Z, (0 <= num_samples)%Z ->
   exists fuel0 : nat, forall fuel : nat, (fuel0 <= fuel)%nat ->
   exists (audio : list (list R)) (offset' : R),
     generate_audio FREQUENCY VOLUME SAMPLERATE CHANNELS fuel num_samples offset
     = Returns (audio, offset')
     /\ 0 <= offset' < 1 / FREQUENCY)
  /\ (forall (keys : gmap key bool) (frames : nat),
      exists fuel0 : nat, forall fuel : nat, (fuel0 <= fuel)%nat ->
      exists (outdata : list (list R)) (offset' : R),
        audio_callback FREQUENCY VOLUME SAMPLERATE CHANNELS fuel keys offset frames
        = Returns (outdata, offset')
        /\ 0 <= offset' < 1 / FREQUENCY).
Proof.
  intros Hf Hr Hoff. pose proof (period_pos FREQUENCY Hf) as Hp.
  assert (Hgen : forall n : nat,
    exists fuel0 : nat, (2 <= fuel0)%nat /\ forall fuel : nat, (fuel0 <= fuel)%nat ->
    exists (audio : list (list R)) (offset' : R),
      generate_audio FREQUENCY VOLUME SAMPLERATE CHANNELS fuel (Z.of_nat n) offset
      = Returns (audio, offset')
      /\ 0 <= offset' < 1 / FREQUENCY).
  { intros n.
    destruct (fuel_exists FREQUENCY Hf (offset + INR n / IZR SAMPLERATE))
      as [fuel0 Hfuel0].
    exists (fuel0 + 2)%nat. split; [lia |]. intros fuel Hle.
    assert (Hle' : (fuel0 <= fuel)%nat) by lia.
    pose proof (fuel_le_bound fuel0 fuel _ _ Hp Hfuel0 Hle') as Hfuel.
    destruct (generate_audio_spec FREQUENCY VOLUME SAMPLERATE CHANNELS Hf Hr
                fuel n offset) as [k [Hk Hrange]]; [lra | exact Hfuel |].
    eexists; eexists; split; [exact Hk | exact Hrange]. }
  split.
  - intros num_samples Hnum.
    destruct (Hgen (Z.to_nat num_samples)) as [fuel0 [_ H]].
    rewrite Z2Nat.id in H by exact Hnum. exists fuel0. exact H.
  - intros keys frames. destruct (Hgen frames) as [fuel0 [H2 H]].
    exists fuel0. intros fuel Hle.
    destruct (gate keys) eqn:Hgate.
    + destruct (H fuel Hle) as (audio & offset' & Hk & Hrange).
      unfold audio_callback. rewrite Hgate, Hk.
      eexists; eexists; split; [reflexivity | exact Hrange].
    + destruct (Req_dec_T offset 0) as [H0 | Hne].
      * subst offset. rewrite callback_rest by exact Hgate.
        eexists; eexists; split; [reflexivity | lra].
      * destruct (release_step FREQUENCY VOLUME SAMPLERATE CHANNELS Hf Hr
                    fuel keys offset frames Hgate)
          as (m & off1 & Hcb & _ & _ & Hrange & _); [lra | lia |].
        rewrite Hcb. eexists; eexists; split; [reflexivity | exact Hrange].
Qed.


End RenderTheorems.

(** The default session (440 Hz at 44100 samples per second) after one
    block of 256 frames with the keys held. *)
Lemma first_block_offset (vol : R) (channels fuel : nat) :
  (3 <= fuel)%nat ->
  exists audio : list (list R),
    generate_audio 440 vol 44100 channels fuel 256 0
    = Returns (audio, (256 / 44100 - 2 / 440)%R).
Proof.
  intros Hfuel.
  assert (Hf : (0 < 440)%R) by lra. assert (Hr : (0 < 44100)%Z) by lia.
  destruct (generate_audio_spec 440 vol 44100 channels Hf Hr fuel 256 0)
    as [k [Hgen Hrange]].
  - lra.
  - apply le_INR in Hfuel. simpl in Hfuel. simpl. lra.
  - change (Z.of_nat 256) with 256%Z in Hgen. rewrite Hgen. eexists. do 2 f_equal.
    assert (H2 : (0 <= 0 + INR 256 / 44100 - INR 2 * (1 / 440) < 1 / 440)%R)
      by (simpl; lra).
    rewrite (residue_unique 440 Hf _ k 2 Hrange H2). simpl. lra.
Qed.

(** The ring-out of the specification's example: 440 Hz, 44100 samples
    per second, released with the offset at 0.001. *)
Example remaining_samples_ring_out :
  remaining_samples 440 44100 (1 / 1000) = Returns 56%Z.
Proof.
  unfold remaining_samples. rewrite truediv_ok by lra.
  cbn [mbind outcome_bind]. f_equal. apply int_unique; lra.
Qed.


(** ** Key mapping *)

Section KeyMapping.

Lemma lower_latin_idem (c : Ascii.ascii) :
  lower_latin (lower_latin c) = lower_latin c.
Proof. destruct c as [[] [] [] [] [] [] [] []]; reflexivity. Qed.

Lemma lower_app (s t : str) : lower (s ++ t) = lower s ++ lower t.
Proof.
  induction s as [| c s IH]; [reflexivity |].
  cbn [app lower]. rewrite IH, app_assoc. reflexivity.
Qed.

Lemma lower_char_idem (c : char) : lower (lower_char c) = lower_char c.
Proof.
  destruct c as [a | |]; cbn; [rewrite lower_latin_idem |..]; reflexivity.
Qed.

Lemma lower_idem (s : str) : lower (lower s) = lower s.
Proof.
  induction s as [| c s IH]; [reflexivity |].
  cbn [lower]. rewrite lower_app, lower_char_idem, IH. reflexivity.
Qed.

(** Every name of the table has two characters at least. *)
Lemma SPECIAL_KEYS_single (c : char) : SPECIAL_KEYS !! [c] = None.
Proof.
  unfold SPECIAL_KEYS. apply not_elem_of_list_to_map_1. cbn [fmap list_fmap fst].
  intros H.
  repeat (apply elem_of_cons in H as [H | H]; [discriminate H |]).
  apply elem_of_nil in H. contradiction.
Qed.

Lemma key_object_supported (name : str) :
  supported name -> exists k : key, key_object name = Returns k.
Proof.
  intros [[k Hk] | Hlen]; unfold key_object.
  - rewrite Hk. eauto.
  - destruct (SPECIAL_KEYS !! lower name); [eauto |].
    destruct (decide (length (lower name) = 1%nat)); [eauto | contradiction].
Qed.

Lemma key_object_unsupported (name : str) :
  ~ supported name ->
  key_object name = Raises (ValueError (latin "Unknown key: " ++ lower name)).
Proof.
  intros Hno. unfold key_object.
  destruct (SPECIAL_KEYS !! lower name) as [k |] eqn:Hk.
  - exfalso. apply Hno. left. rewrite Hk. eauto.
  - destruct (decide (length (lower name) = 1%nat)) as [Hlen | _];
      [| reflexivity].
    exfalso. apply Hno. right. exact Hlen.
Qed.

Lemma keys_dict_from_supported (key_names : list str) :
  Forall supported key_names ->
  forall acc : gmap key bool,
  exists keys : gmap key bool, keys_dict_from acc key_names = Returns keys.
Proof.
  induction 1 as [| name rest Hname _ IH]; intros acc; [cbn; eauto |].
  destruct (key_object_supported name Hname) as [k Hk].
  cbn [keys_dict_from]. rewrite Hk. cbn [mbind outcome_bind]. apply IH.
Qed.

Lemma keys_dict_from_unsupported (good : list str) (bad : str)
  (rest : list str) :
  Forall supported good -> ~ supported bad ->
  forall acc : gmap key bool,
  keys_dict_from acc (good ++ bad :: rest)
  = Raises (ValueError (latin "Unknown key: " ++ lower bad)).
Proof.
  intros Hgood Hbad. induction Hgood as [| name good Hname _ IH]; intros acc.
  - cbn [app keys_dict_from]. rewrite key_object_unsupported by exact Hbad.
    reflexivity.
  - destruct (key_object_supported name Hname) as [k Hk].
    cbn [app keys_dict_from]. rewrite Hk. cbn [mbind outcome_bind]. apply IH.
Qed.

(** C8, as amended (unknown key name).  A name is supported when its
    lower-case form is in [SPECIAL_KEYS] or is one character long.
    [key_object] returns a key object for every supported name and raises
    [ValueError] for every other one, the message being ["Unknown key: "]
    followed by the name in lower case.  [keys_dict] returns a dictionary
    when all names are supported, and raises that error for the first name
    that is not. *)
Theorem unknown_key_name (name : str) :
  (supported name -> exists k : key, key_object name = Returns k)
  /\ (~ supported name ->
      key_object name = Raises (ValueError (latin "Unknown key: " ++ lower name)))
  /\ (forall key_names : list str, Forall supported key_names ->
      exists keys : gmap key bool, keys_dict key_names = Returns keys)
  /\ (forall good rest : list str, Forall supported good ->
      ~ supported name ->
      keys_dict (good ++ name :: rest)
      = Raises (ValueError (latin "Unknown key: " ++ lower name))).
Proof.
  split; [apply key_object_supported |].
  split; [apply key_object_unsupported |].
  split.
  - intros key_names Hall. apply keys_dict_from_supported. exact Hall.
  - intros good rest Hgood Hbad. apply keys_dict_from_unsupported; assumption.
Qed.

(** C9, as amended (case-insensitive key mapping).  [key_object] gives
    for a name what it gives for the name in lower case, a key object or
    the error; so two spellings that differ in letter case only give the
    same result; and a single character whose lower-case form is again a
    single character maps to the [KeyCode] of that form. *)
Theorem key_object_case_insensitive (name : str) :
  key_object name = key_object (lower name)
  /\ (forall other : str, lower other = lower name ->
      key_object other = key_object name)
  /\ (forall c c' : char, lower_char c = [c'] ->
      key_object [c] = Returns (KeyCode [c'])).
Proof.
  split; [unfold key_object; rewrite lower_idem; reflexivity |].
  split.
  - intros other Heq. unfold key_object. rewrite Heq. reflexivity.
  - intros c c' Hc. unfold key_object. cbn [lower]. rewrite Hc. cbn [app].
    rewrite SPECIAL_KEYS_single. reflexivity.
Qed.

(** C8, as written, fails.  The one-character name U+0130 is in lower
    case two characters long: [key_object] finds it neither in the table
    nor of length 1 and raises, where the claim has every single character
    give a key object. *)
Lemma capital_i_dot_refused :
  length [CapitalIDot] = 1%nat
  /\ key_object [CapitalIDot]
     = Raises (ValueError (latin "Unknown key: "
                           ++ [Latin (Ascii.ascii_of_nat 105); CombiningDot])).
Proof. split; [reflexivity |]. vm_compute. reflexivity. Qed.

(** C9, as written, fails.  U+0130 is a single upper-case character; its
    lower-case form is [i] followed by U+0307, and [key_object] gives no
    [KeyCode] for it, nor any other key object. *)
Lemma capital_i_dot_no_keycode :
  lower [CapitalIDot] = [Latin (Ascii.ascii_of_nat 105); CombiningDot]
  /\ forall k : key, key_object [CapitalIDot] <> Returns k.
Proof.
  split; [reflexivity |]. intros k H. vm_compute in H. discriminate H.
Qed.

End KeyMapping.

(** ** The key-state dictionary and the gate *)

Section KeyStates.

Lemma on_press_absent (k : key) (keys : gmap key bool) :
  keys !! k = None -> on_press k keys = keys.
Proof.
  intros Hk. unfold on_press.
  destruct (decide (is_Some (keys !! k))) as [[v Hv] | _]; [congruence | reflexivity].
Qed.

Lemma on_release_absent (k : key) (keys : gmap key bool) :
  keys !! k = None -> on_release k keys = keys.
Proof.
  intros Hk. unfold on_release.
  destruct (decide (is_Some (keys !! k))) as [[v Hv] | _]; [congruence | reflexivity].
Qed.

Lemma on_press_other (k k' : key) (keys : gmap key bool) :
  k' <> k -> on_press k keys !! k' = keys !! k'.
Proof.
  intros Hne. unfold on_press. destruct (decide (is_Some (keys !! k))); [| reflexivity].
  apply lookup_insert_ne. congruence.
Qed.

Lemma on_release_other (k k' : key) (keys : gmap key bool) :
  k' <> k -> on_release k keys !! k' = keys !! k'.
Proof.
  intros Hne. unfold on_release. destruct (decide (is_Some (keys !! k))); [| reflexivity].
  apply lookup_insert_ne. congruence.
Qed.

Lemma on_press_present (k : key) (keys : gmap key bool) :
  is_Some (keys !! k) -> on_press k keys !! k = Some true.
Proof.
  intros Hk. unfold on_press. destruct (decide (is_Some (keys !! k))); [| contradiction].
  apply lookup_insert_eq.
Qed.

Lemma on_release_present (k : key) (keys : gmap key bool) :
  is_Some (keys !! k) -> on_release k keys !! k = Some false.
Proof.
  intros Hk. unfold on_release. destruct (decide (is_Some (keys !! k))); [| contradiction].
  apply lookup_insert_eq.
Qed.

Lemma on_press_dom (k : key) (keys : gmap key bool) :
  dom (on_press k keys) = dom keys.
Proof.
  unfold on_press. destruct (decide (is_Some (keys !! k))) as [Hk | _]; [| reflexivity].
  apply dom_insert_lookup_L. exact Hk.
Qed.

Lemma on_release_dom (k : key) (keys : gmap key bool) :
  dom (on_release k keys) = dom keys.
Proof.
  unfold on_release. destruct (decide (is_Some (keys !! k))) as [Hk | _]; [| reflexivity].
  apply dom_insert_lookup_L. exact Hk.
Qed.

(** The comprehension only ever stores [False], and what it has stored
    stays in the dictionary. *)
Lemma keys_dict_from_false (key_names : list str) :
  forall acc keys : gmap key bool,
  keys_dict_from acc key_names = Returns keys ->
  (forall k v, acc !! k = Some v -> v = false) ->
  (forall k v, keys !! k = Some v -> v = false)
  /\ (forall k, is_Some (acc !! k) -> is_Some (keys !! k))
  /\ (key_names <> [] -> exists k, keys !! k = Some false).
Proof.
  induction key_names as [| name rest IH]; intros acc keys Hrun Hacc.
  - cbn in Hrun. injection Hrun as <-. split; [exact Hacc |]. split; [auto | congruence].
  - cbn [keys_dict_from] in Hrun.
    destruct (key_object name) as [k0 | e |]; cbn [mbind outcome_bind] in Hrun;
      try discriminate.
    destruct (IH _ _ Hrun) as (Hall & Hkeep & _).
    { intros k v. rewrite lookup_insert. destruct (decide (k0 = k)); [congruence | apply Hacc]. }
    split; [exact Hall |]. split.
    + intros k Hk. apply Hkeep. rewrite lookup_insert.
      destruct (decide (k0 = k)); [eauto | exact Hk].
    + intros _. destruct (Hkeep k0) as [v Hv].
      { rewrite lookup_insert_eq. eauto. }
      exists k0. rewrite Hv. f_equal. eapply Hall. exact Hv.
Qed.

Lemma gate_false (keys : gmap key bool) (k : key) :
  keys !! k = Some false -> gate keys = false.
Proof.
  intros Hk. unfold gate. apply bool_decide_eq_false. intros Hall.
  specialize (Hall k false Hk). discriminate.
Qed.

(** C10 (gate frame property).  An event for a key that is not in the
    dictionary leaves the dictionary as it is, and so the gate.  An event
    for a key of the dictionary sets that key's entry ([True] on press,
    [False] on release) and no other entry.  Neither handler changes the
    set of keys.  The dictionary [keys_dict] builds holds [False] at every
    key and, the list of names not being empty (the command line asks for
    one name at least and defaults to one), the gate starts deasserted. *)
Theorem gate_frame (k : key) (keys : gmap key bool) :
  (keys !! k = None ->
   on_press k keys = keys /\ on_release k keys = keys
   /\ gate (on_press k keys) = gate keys /\ gate (on_release k keys) = gate keys)
  /\ (is_Some (keys !! k) ->
      on_press k keys !! k = Some true /\ on_release k keys !! k = Some false)
  /\ (forall k' : key, k' <> k ->
      on_press k keys !! k' = keys !! k' /\ on_release k keys !! k' = keys !! k')
  /\ dom (on_press k keys) = dom keys
  /\ dom (on_release k keys) = dom keys
  /\ (forall (key_names : list str) (fresh : gmap key bool),
      keys_dict key_names = Returns fresh ->
      (forall k' v, fresh !! k' = Some v -> v = false)
      /\ (key_names <> [] -> gate fresh = false)).
Proof.
  split.
  { intros Hk. rewrite on_press_absent, on_release_absent by exact Hk. auto. }
  split.
  { intros Hk. split; [apply on_press_present | apply on_release_present]; exact Hk. }
  split.
  { intros k' Hne. split; [apply on_press_other | apply on_release_other]; exact Hne. }
  split; [apply on_press_dom |]. split; [apply on_release_dom |].
  intros key_names fresh Hrun.
  destruct (keys_dict_from_false key_names ∅ fresh Hrun) as (Hall & _ & Hsome).
  { intros k' v. rewrite lookup_empty. discriminate. }
  split; [exact Hall |].
  intros Hne. destruct (Hsome Hne) as [k' Hk']. eapply gate_false. exact Hk'.
Qed.

End KeyStates.

(** ** The theorems in the default session (440 Hz, volume 0.5, 44100
    samples per second, two channels, key [shift_r]) *)

Section DefaultSession.

Local Open Scope R_scope.

Lemma phase_continuity_witness :
  exists fuel0 : nat, forall fuel : nat, (fuel0 <= fuel)%nat ->
  exists (audio : list (list R)) (offset' : R),
    generate_chain 440 (1 / 2) 44100 2 fuel [256; 256; 100]%Z 0
    = Returns (audio, offset')
    /\ generate_audio 440 (1 / 2) 44100 2 fuel 612 0 = Returns (audio, offset').
Proof.
  apply (phase_continuity 440 (1 / 2) 44100 2 [256; 256; 100]%Z 0);
    [lra | lia | lra | repeat constructor; lia].
Defined.

Lemma generate_audio_frames_witness :
  exists fuel0 : nat, forall fuel : nat, (fuel0 <= fuel)%nat ->
  exists (audio : list (list R)) (offset' : R),
    generate_audio 440 (1 / 2) 44100 2 fuel 256 0 = Returns (audio, offset')
    /\ length audio = 256%nat
    /\ forall i : nat, (i < 256)%nat ->
       audio !! i
       = Some (repeat (sin (2 * PI * 440 * (0 + INR i / 44100)) * (1 / 2)) 2).
Proof.
  apply (generate_audio_frames 440 (1 / 2) 44100 2 256 0); [lra | lia | lia | lra].
Defined.

Lemma generate_audio_zero_witness :
  generate_audio 440 (1 / 2) 44100 2 1 0 (1 / 1000) = Returns ([], 1 / 1000).
Proof.
  apply (generate_audio_zero 440 (1 / 2) 44100 2 1 (1 / 1000)); [lra | lia | lra | lia].
Defined.

Lemma shift_r_up_gate : gate shift_r_up = false.
Proof. apply (gate_false _ (Special Key.shift_r)). apply lookup_singleton_eq. Qed.

Lemma offset_invariant_witness :
  (exists fuel0 : nat, forall fuel : nat, (fuel0 <= fuel)%nat ->
   exists (audio : list (list R)) (offset' : R),
     generate_audio 440 (1 / 2) 44100 2 fuel 256 (1 / 1000) = Returns (audio, offset')
     /\ 0 <= offset' < 1 / 440)
  /\ (exists fuel0 : nat, forall fuel : nat, (fuel0 <= fuel)%nat ->
      exists (outdata : list (list R)) (offset' : R),
        audio_callback 440 (1 / 2) 44100 2 fuel shift_r_up (1 / 1000) 256
        = Returns (outdata, offset')
        /\ 0 <= offset' < 1 / 440).
Proof.
  destruct (offset_invariant 440 (1 / 2) 44100 2 (1 / 1000)) as [Hgen Hcb];
    [lra | lia | lra |].
  split; [apply (Hgen 256%Z); lia | apply (Hcb shift_r_up 256%nat)].
Defined.


Lemma foobar_unsupported : ~ supported (latin "FooBar").
Proof.
  intros [[k Hk] | Hlen]; [vm_compute in Hk; discriminate | discriminate].
Qed.

Lemma shift_r_supported : supported (latin "Shift_R").
Proof. left. vm_compute. eauto. Qed.

Lemma a_supported : supported (latin "a").
Proof. right. reflexivity. Qed.

Lemma unknown_key_name_witness :
  key_object (latin "FooBar") = Raises (ValueError (latin "Unknown key: foobar"))
  /\ keys_dict [latin "Shift_R"; latin "a"; latin "FooBar"; latin "b"]
     = Raises (ValueError (latin "Unknown key: foobar"))
  /\ (exists k : key, key_object (latin "Shift_R") = Returns k)
  /\ (exists keys : gmap key bool, keys_dict [latin "Shift_R"; latin "a"] = Returns keys).
Proof.
  destruct (unknown_key_name (latin "FooBar")) as (_ & Hbad & _ & Hfirst).
  destruct (unknown_key_name (latin "Shift_R")) as (Hgood & _ & Hall & _).
  split; [exact (Hbad foobar_unsupported) |].
  split.
  - apply (Hfirst [latin "Shift_R"; latin "a"] [latin "b"]); [| exact foobar_unsupported].
    constructor; [exact shift_r_supported |].
    constructor; [exact a_supported | constructor].
  - split; [exact (Hgood shift_r_supported) |].
    apply Hall. constructor; [exact shift_r_supported |].
    constructor; [exact a_supported | constructor].
Defined.

Lemma key_object_case_insensitive_witness :
  key_object (latin "Shift_R") = key_object (latin "shift_r")
  /\ key_object (latin "SHIFT_R") = key_object (latin "Shift_R")
  /\ key_object (latin "A") = Returns (KeyCode (latin "a")).
Proof.
  destruct (key_object_case_insensitive (latin "Shift_R")) as (Hlow & Hsame & Hchar).
  split; [exact Hlow |].
  split; [apply (Hsame (latin "SHIFT_R")); reflexivity | exact (Hchar (Latin (Ascii.ascii_of_nat 65)) (Latin (Ascii.ascii_of_nat 97)) eq_refl)].
Defined.

Lemma gate_frame_witness :
  (on_press (KeyCode (latin "x")) shift_r_up = shift_r_up
   /\ on_release (KeyCode (latin "x")) shift_r_up = shift_r_up
   /\ gate (on_press (KeyCode (latin "x")) shift_r_up) = gate shift_r_up
   /\ gate (on_release (KeyCode (latin "x")) shift_r_up) = gate shift_r_up)
  /\ (on_press (Special Key.shift_r) shift_r_up !! Special Key.shift_r = Some true
      /\ on_release (Special Key.shift_r) shift_r_up !! Special Key.shift_r
         = Some false)
  /\ (on_press (Special Key.shift_r) shift_r_up !! KeyCode (latin "x")
      = shift_r_up !! KeyCode (latin "x")
      /\ on_release (Special Key.shift_r) shift_r_up !! KeyCode (latin "x")
         = shift_r_up !! KeyCode (latin "x"))
  /\ (forall fresh : gmap key bool, keys_dict [latin "shift_r"] = Returns fresh ->
      gate fresh = false).
Proof.
  destruct (gate_frame (KeyCode (latin "x")) shift_r_up) as (Habsent & _).
  destruct (gate_frame (Special Key.shift_r) shift_r_up)
    as (_ & Hpresent & Hother & _ & _ & Hfresh).
  split; [apply Habsent; apply lookup_singleton_ne; discriminate |].
  split; [apply Hpresent; exists false; apply lookup_singleton_eq |].
  split; [apply Hother; discriminate |].
  intros fresh Hrun. destruct (Hfresh [latin "shift_r"] fresh Hrun) as [_ Hgate].
  apply Hgate. discriminate.
Defined.

End DefaultSession.

(** ** The release tail in double precision *)

Section DoublePrecision.




(** The default session after one held block of 256 frames, in doubles:
    44.68 samples are left, the callback counts 44, rounding gives 45. *)
Example remaining_samples64_default_session :
  ('(t, offset) ← generate_audio64 440 44100 10 256 0; Returns (length t, offset))
  = Returns (256%nat, 0x1.4a2de75b77b64p-10%float)
  /\ remaining_samples64 440 44100 0x1.4a2de75b77b64p-10 = Returns 44%Z
  /\ (x ← remaining_value64 440 44100 0x1.4a2de75b77b64p-10; Py64.round x)
     = Returns 45%Z.
Proof. repeat split; vm_compute; reflexivity. Qed.

Lemma shift_r_down_gate : gate shift_r_down = true.
Proof.
  unfold gate, shift_r_down. apply bool_decide_eq_true.
  intros k v Hk. apply lookup_singleton_Some in Hk as [_ <-]. reflexivity.
Qed.

(** X20.  In double precision, from offset 0 a released stream is
    silence: every callback that finds the gate released and the offset at
    0 writes zeros only and leaves the offset at 0, whatever the frequency
    and the sample rate. *)
Theorem stream64_rest (FREQUENCY : float) (SAMPLERATE : Z) (fuel : nat)
  (blocks : list (gmap key bool * nat)) :
  released blocks ->
  stream64 FREQUENCY SAMPLERATE fuel blocks 0
  = Returns (map (fun b => repeat None (snd b)) blocks, 0%float).
Proof.
  induction 1 as [| [keys frames] blocks Hgate _ IH]; [reflexivity |].
  cbn [stream64 map snd]. simpl in Hgate. unfold audio_callback64.
  rewrite Hgate. change (PrimFloat.eqb 0 0) with true.
  cbn [mbind outcome_bind]. rewrite IH. reflexivity.
Qed.

(** C5 (gate-off steady state) fails in the code.  At 525 Hz and 44100
    samples per second a period is 84 samples.  Hold [shift_r] for one
    block of 256 frames and release it: the first released block plays the
    80 samples that are left and stores the offset [2^-62], which is not 0;
    so the next block finds a period nearly whole, plays 83 more samples
    and stores 0.00188; only the block after that stores 0 and is silent.
    The tail has 163 tone rows, with 176 rows of silence inside it. *)
Theorem release_tail_plays_twice :
  stream_runs
    (stream64 525 44100 10
       [(shift_r_down, 256%nat); (shift_r_up, 256%nat); (shift_r_up, 256%nat);
        (shift_r_up, 256%nat)] 0)
  = Returns ([[(true, 256%nat)];
              [(true, 80%nat); (false, 176%nat)];
              [(true, 83%nat); (false, 173%nat)];
              [(false, 256%nat)]], 0%float)
  /\ callback_runs (audio_callback64 525 44100 10 shift_r_down 0 256)
     = Returns ([(true, 256%nat)], 0x1.7c6f8c751f18p-14%float)
  /\ callback_runs (audio_callback64 525 44100 10 shift_r_up 0x1.7c6f8c751f18p-14 256)
     = Returns ([(true, 80%nat); (false, 176%nat)], 0x1p-62%float)
  /\ callback_runs (audio_callback64 525 44100 10 shift_r_up 0x1p-62 256)
     = Returns ([(true, 83%nat); (false, 173%nat)], 0x1.ed60aa27e4527p-10%float)
  /\ callback_runs (audio_callback64 525 44100 10 shift_r_up 0x1.ed60aa27e4527p-10 256)
     = Returns ([(false, 256%nat)], 0%float)
  /\ (84 * 525 = 44100)%Z /\ (84 < 80 + 83)%nat.
Proof.
  unfold stream_runs, callback_runs. cbn [stream64]. unfold audio_callback64.
  rewrite shift_r_down_gate, shift_r_up_gate.
  repeat split; try (vm_compute; reflexivity). lia.
Qed.

Lemma stream64_rest_witness :
  stream64 525 44100 0 [(shift_r_up, 256%nat); (shift_r_up, 128%nat)] 0
  = Returns ([repeat None 256; repeat None 128], 0%float).
Proof.
  apply (stream64_rest 525 44100 0 [(shift_r_up, 256%nat); (shift_r_up, 128%nat)]).
  repeat constructor; exact shift_r_up_gate.
Defined.


End DoublePrecision.

(** * More of the code *)

(** ** Key names and key objects *)

Section KeyNames.

Lemma SPECIAL_KEYS_name (m : Key.t) : SPECIAL_KEYS !! Key.name m = Some m.
Proof. destruct m; vm_compute; reflexivity. Qed.

Lemma lower_name (m : Key.t) : lower (Key.name m) = Key.name m.
Proof. destruct m; reflexivity. Qed.

Lemma key_object_inv (name : str) (k : key) :
  key_object name = Returns k ->
  (exists m : Key.t, k = Special m /\ SPECIAL_KEYS !! lower name = Some m)
  \/ (k = KeyCode (lower name) /\ SPECIAL_KEYS !! lower name = None
      /\ length (lower name) = 1%nat).
Proof.
  unfold key_object. destruct (SPECIAL_KEYS !! lower name) as [m |] eqn:Hm.
  - intros H. injection H as <-. left. exists m. auto.
  - destruct (decide (length (lower name) = 1%nat)) as [Hlen | _]; [| discriminate].
    intros H. injection H as <-. right. auto.
Qed.

Lemma key_object_lower (name : str) : key_object (lower name) = key_object name.
Proof. unfold key_object. rewrite lower_idem. reflexivity. Qed.

Lemma readable_key_lower (name : str) (k : key) :
  key_object name = Returns k -> lower (readable_key k) = readable_key k.
Proof.
  intros H. destruct (key_object_inv name k H) as [(m & -> & _) | (-> & _)]; cbn.
  - apply lower_name.
  - apply lower_idem.
Qed.

Lemma key_object_readable (name : str) (k : key) :
  key_object name = Returns k -> key_object (readable_key k) = Returns k.
Proof.
  intros H. destruct (key_object_inv name k H) as [(m & -> & _) | (-> & _)]; cbn.
  - unfold key_object. rewrite lower_name, SPECIAL_KEYS_name. reflexivity.
  - rewrite key_object_lower. exact H.
Qed.

(** X1.  The name [get_readable_keys] shows for a key that [key_object]
    made is in lower case, and [key_object] turns it back into the same
    key: a member of [keyboard.Key] is shown by its own name, which may be
    another name than the alias it was asked by, and a [KeyCode] by its
    character. *)
Theorem readable_key_round_trip (name : str) (k : key) :
  key_object name = Returns k ->
  key_object (readable_key k) = Returns k
  /\ lower (readable_key k) = readable_key k
  /\ (forall c : str, k = KeyCode c -> readable_key k = lower name).
Proof.
  intros H. split; [exact (key_object_readable name k H) |].
  split; [exact (readable_key_lower name k H) |].
  intros c ->. destruct (key_object_inv name _ H) as [(m & Hk & _) | (Hk & _)];
    [discriminate Hk | injection Hk as ->; reflexivity].
Qed.

End KeyNames.

(** ** The dictionary of key states *)

Section KeyDictionary.

Lemma keys_dict_from_domain (key_names : list str) :
  forall acc keys : gmap key bool,
  keys_dict_from acc key_names = Returns keys ->
  (forall k : key,
     is_Some (keys !! k)
     <-> is_Some (acc !! k)
         \/ exists name : str, name ∈ key_names /\ key_object name = Returns k)
  /\ (size keys <= size acc + length key_names)%nat.
Proof.
  induction key_names as [| name rest IH]; intros acc keys Hrun.
  - cbn in Hrun. injection Hrun as <-. split; [| cbn; lia].
    intros k. split; [auto |]. intros [H | (name & Hin & _)]; [exact H |].
    apply elem_of_nil in Hin. contradiction.
  - cbn [keys_dict_from] in Hrun.
    destruct (key_object name) as [k0 | e |] eqn:Hk0;
      cbn [mbind outcome_bind] in Hrun; try discriminate.
    destruct (IH _ _ Hrun) as [Hdom Hsize]. split.
    + intros k. rewrite Hdom, lookup_insert_is_Some. split.
      * intros [[<- | [_ Hacc]] | (n & Hin & Hn)].
        -- right. exists name. split; [apply list_elem_of_here | exact Hk0].
        -- left. exact Hacc.
        -- right. exists n. split; [apply list_elem_of_further; exact Hin | exact Hn].
      * intros [Hacc | (n & Hin & Hn)].
        -- left. destruct (decide (k0 = k)); [left; assumption | right; auto].
        -- apply elem_of_cons in Hin as [-> | Hin].
           ++ left. left. congruence.
           ++ right. exists n. auto.
    + cbn [length].
      assert (size (<[k0:=false]> acc) <= S (size acc))%nat.
      { destruct (acc !! k0) eqn:Hacc.
        - rewrite map_size_insert_Some by eauto. lia.
        - rewrite map_size_insert_None by exact Hacc. lia. }
      lia.
Qed.

(** X4.  The dictionary [keys_dict] returns holds exactly the key objects
    of the names it was given, and so no more entries than there were
    names: names that only differ in letter case share one entry. *)
Theorem keys_dict_domain (key_names : list str) (keys : gmap key bool) :
  keys_dict key_names = Returns keys ->
  (forall k : key,
     is_Some (keys !! k)
     <-> exists name : str, name ∈ key_names /\ key_object name = Returns k)
  /\ (size keys <= length key_names)%nat.
Proof.
  intros Hrun.
  destruct (keys_dict_from_domain key_names ∅ keys Hrun) as [Hdom Hsize].
  rewrite map_size_empty in Hsize. split; [| exact Hsize].
  intros k. rewrite Hdom. split; [| auto].
  intros [Hempty | H]; [| exact H].
  rewrite lookup_empty in Hempty. destruct Hempty as [v Hv]. discriminate.
Qed.

End KeyDictionary.

(** ** The readable key names *)

Section ReadableKeys.

Lemma keys_order_from_returns (key_names : list str) :
  forall (acc : gmap key bool) (keys : gmap key bool) (seen : list key),
  keys_dict_from acc key_names = Returns keys ->
  exists l : list key, keys_order_from seen key_names = Returns l.
Proof.
  induction key_names as [| name rest IH]; intros acc keys seen Hrun.
  - cbn. eauto.
  - cbn [keys_dict_from keys_order_from] in *.
    destruct (key_object name) as [k0 | e |]; cbn [mbind outcome_bind] in *;
      try discriminate.
    eapply IH. exact Hrun.
Qed.

Lemma keys_order_from_spec (key_names : list str) :
  forall acc l : list key,
  keys_order_from acc key_names = Returns l ->
  NoDup acc ->
  NoDup l
  /\ (forall k : key,
        k ∈ l
        <-> k ∈ acc
            \/ exists name : str, name ∈ key_names /\ key_object name = Returns k).
Proof.
  induction key_names as [| name rest IH]; intros acc l Hrun Hnd.
  - cbn in Hrun. injection Hrun as <-. split; [exact Hnd |].
    intros k. split; [auto |]. intros [H | (n & Hin & _)]; [exact H |].
    apply elem_of_nil in Hin. contradiction.
  - cbn [keys_order_from] in Hrun.
    destruct (key_object name) as [k0 | e |] eqn:Hk0;
      cbn [mbind outcome_bind] in Hrun; try discriminate.
    destruct (decide (k0 ∈ acc)) as [Hin | Hnin].
    + destruct (IH _ _ Hrun Hnd) as (Hndl & Hmem).
      split; [exact Hndl |].
      intros k. rewrite Hmem. split.
      * intros [H | (n & Hn & Hk)]; [left; exact H |].
        right. exists n. split; [apply list_elem_of_further; exact Hn | exact Hk].
      * intros [H | (n & Hn & Hk)]; [left; exact H |].
        apply elem_of_cons in Hn as [-> | Hn].
        -- left. congruence.
        -- right. exists n. auto.
    + destruct (IH _ _ Hrun) as (Hndl & Hmem).
      { apply NoDup_app. split; [exact Hnd |]. split; [| apply NoDup_singleton].
        intros k Hk Hk'. apply list_elem_of_singleton in Hk'. subst k. contradiction. }
      split; [exact Hndl |].
      intros k. rewrite Hmem, elem_of_app, list_elem_of_singleton. split.
      * intros [[H | ->] | (n & Hn & Hk)].
        -- left. exact H.
        -- right. exists name. split; [apply list_elem_of_here | exact Hk0].
        -- right. exists n. split; [apply list_elem_of_further; exact Hn | exact Hk].
      * intros [H | (n & Hn & Hk)]; [left; left; exact H |].
        apply elem_of_cons in Hn as [-> | Hn].
        -- left. right. congruence.
        -- right. exists n. auto.
Qed.

(** X5.  When [keys_dict] returns a dictionary, iterating it yields every
    key of the dictionary once, and [get_readable_keys] shows one name for
    each: the names are pairwise different, and [key_object] turns each
    shown name back into the key it stands for. *)
Theorem get_readable_keys_names (key_names : list str) (keys : gmap key bool) :
  keys_dict key_names = Returns keys ->
  exists l : list key,
    keys_order key_names = Returns l
    /\ NoDup l
    /\ (forall k : key, k ∈ l <-> is_Some (keys !! k))
    /\ Forall2 (fun shown k => key_object shown = Returns k)
         (get_readable_keys l) l
    /\ NoDup (get_readable_keys l).
Proof.
  intros Hrun.
  destruct (keys_order_from_returns key_names ∅ keys [] Hrun) as [l Hl].
  exists l. split; [exact Hl |].
  destruct (keys_order_from_spec key_names [] l Hl) as (Hnd & Hmem);
    [apply NoDup_nil_2 |].
  assert (Hback : forall k : key, k ∈ l -> key_object (readable_key k) = Returns k).
  { intros k Hk. apply Hmem in Hk as [Hk | (name & _ & Hname)].
    - apply elem_of_nil in Hk. contradiction.
    - exact (key_object_readable name k Hname). }
  split; [exact Hnd |]. split; [| split].
  - intros k. rewrite Hmem.
    destruct (keys_dict_from_domain key_names ∅ keys Hrun) as [Hdom _].
    rewrite Hdom. split.
    + intros [Hk | H]; [apply elem_of_nil in Hk; contradiction | right; exact H].
    + intros [Hk | H]; [| right; exact H].
      rewrite lookup_empty in Hk. destruct Hk as [v Hv]. discriminate.
  - clear - Hback. induction l as [| k l IH]; [constructor |].
    cbn. constructor.
    + apply Hback. apply list_elem_of_here.
    + apply IH. intros k' Hk'. apply Hback. apply list_elem_of_further. exact Hk'.
  - change (get_readable_keys l) with (readable_key <$> l).
    apply NoDup_fmap_2_strong; [| exact Hnd].
    intros k1 k2 H1 H2 Heq.
    pose proof (Hback k1 H1) as B1. pose proof (Hback k2 H2) as B2.
    rewrite Heq in B1. congruence.
Qed.

End ReadableKeys.

(** ** The listener's events and the gate *)

Section KeyEvents.

Lemma gate_true (keys : gmap key bool) :
  gate keys = true <-> forall (k : key) (v : bool), keys !! k = Some v -> v = true.
Proof. unfold gate. rewrite bool_decide_eq_true. reflexivity. Qed.

Lemma on_press_lookup (k k' : key) (keys : gmap key bool) :
  on_press k keys !! k'
  = if decide (k = k') then (fun _ => true) <$> keys !! k' else keys !! k'.
Proof.
  unfold on_press. destruct (decide (k = k')) as [<- | Hne].
  - destruct (decide (is_Some (keys !! k))) as [[v Hv] | Hno].
    + rewrite lookup_insert_eq, Hv. reflexivity.
    + destruct (keys !! k) as [v |] eqn:Hv; [exfalso; apply Hno; eauto | reflexivity].
  - destruct (decide (is_Some (keys !! k))); [| reflexivity].
    apply lookup_insert_ne. exact Hne.
Qed.

Lemma on_release_lookup (k k' : key) (keys : gmap key bool) :
  on_release k keys !! k'
  = if decide (k = k') then (fun _ => false) <$> keys !! k' else keys !! k'.
Proof.
  unfold on_release. destruct (decide (k = k')) as [<- | Hne].
  - destruct (decide (is_Some (keys !! k))) as [[v Hv] | Hno].
    + rewrite lookup_insert_eq, Hv. reflexivity.
    + destruct (keys !! k) as [v |] eqn:Hv; [exfalso; apply Hno; eauto | reflexivity].
  - destruct (decide (is_Some (keys !! k))); [| reflexivity].
    apply lookup_insert_ne. exact Hne.
Qed.

Lemma listen_lookup (events : list event) :
  forall (keys : gmap key bool) (k : key),
  listen events keys !! k
  = (fun v => default v (latest k events)) <$> keys !! k.
Proof.
  induction events as [| e rest IH]; intros keys k.
  - cbn. destruct (keys !! k); reflexivity.
  - change (listen (e :: rest) keys) with (listen rest (deliver e keys)).
    rewrite IH. cbn [latest].
    destruct e as [k' | k']; cbn [deliver];
      [rewrite on_press_lookup | rewrite on_release_lookup];
      destruct (decide (k' = k)) as [-> | Hne];
      destruct (keys !! k) as [v |]; cbn;
      destruct (latest k rest); reflexivity.
Qed.

(** X6.  After any run of events, an entry of the dictionary holds what the
    latest event for its key says ([True] after a press, [False] after a
    release) or, with no event for that key, what it held before; keys that
    are not in the dictionary are not added, however many events name
    them. *)
Theorem listen_latest_event (events : list event) (keys : gmap key bool) (k : key) :
  listen events keys !! k
  = match keys !! k with
    | Some v => Some (default v (latest k events))
    | None => None
    end.
Proof. rewrite listen_lookup. destruct (keys !! k); reflexivity. Qed.

(** X7.  From the dictionary [keys_dict] builds, the gate is asserted after
    a run of events exactly when, for every key of the dictionary, there was
    an event and the latest one was a press. *)
Theorem gate_after_events (key_names : list str) (fresh : gmap key bool)
  (events : list event) :
  keys_dict key_names = Returns fresh ->
  (gate (listen events fresh) = true
   <-> forall k : key, is_Some (fresh !! k) -> latest k events = Some true).
Proof.
  intros Hrun.
  destruct (keys_dict_from_false key_names ∅ fresh Hrun) as (Hfalse & _).
  { intros k v. rewrite lookup_empty. discriminate. }
  rewrite gate_true. split.
  - intros Hall k [v Hv]. pose proof (Hfalse k v Hv) as ->.
    specialize (Hall k (default false (latest k events))).
    rewrite listen_lookup, Hv in Hall. specialize (Hall eq_refl).
    destruct (latest k events) as [[] |]; try discriminate. reflexivity.
  - intros Hall k v. rewrite listen_lookup.
    destruct (fresh !! k) as [v0 |] eqn:Hv0; [| discriminate].
    cbn. rewrite (Hall k) by eauto. cbn. congruence.
Qed.

(** X8.  For a key of the dictionary: its release deasserts the gate
    whatever the other keys; its press asserts the gate exactly when every
    other key is held. *)
Theorem gate_press_release (k : key) (keys : gmap key bool) :
  is_Some (keys !! k) ->
  gate (on_release k keys) = false
  /\ (gate (on_press k keys) = true
      <-> forall (k' : key) (v : bool), k' <> k -> keys !! k' = Some v -> v = true).
Proof.
  intros [v0 Hv0]. split.
  - apply (gate_false _ k). rewrite on_release_lookup, Hv0.
    destruct (decide (k = k)); [reflexivity | contradiction].
  - rewrite gate_true. split.
    + intros Hall k' v Hne Hv. apply (Hall k').
      rewrite on_press_lookup. destruct (decide (k = k')); [congruence | exact Hv].
    + intros Hall k' v. rewrite on_press_lookup.
      destruct (decide (k = k')) as [<- | Hne].
      * rewrite Hv0. cbn. congruence.
      * apply Hall. congruence.
Qed.

(** X9.  How the handlers compose: a second press or release of a key
    changes nothing, the later of a press and a release of one key wins,
    and events for two different keys can be swapped. *)
Theorem handlers_compose (k k' : key) (keys : gmap key bool) :
  on_press k (on_press k keys) = on_press k keys
  /\ on_release k (on_release k keys) = on_release k keys
  /\ on_release k (on_press k keys) = on_release k keys
  /\ on_press k (on_release k keys) = on_press k keys
  /\ (k <> k' ->
      on_press k (on_press k' keys) = on_press k' (on_press k keys)
      /\ on_press k (on_release k' keys) = on_release k' (on_press k keys)
      /\ on_release k (on_release k' keys) = on_release k' (on_release k keys)).
Proof.
  repeat split; try intros Hne; apply map_eq; intros j;
    rewrite ?on_press_lookup, ?on_release_lookup;
    repeat (destruct (decide _) as [? | ?]; subst; try congruence);
    rewrite ?on_press_lookup, ?on_release_lookup;
    repeat (destruct (decide _) as [? | ?]; subst; try congruence);
    destruct (keys !! j); reflexivity.
Qed.

End KeyEvents.

(** ** Choosing the output device *)

Section DeviceChoice.

Variable devices : nat.

Lemma choose_device_from_in_range (replies : list reply) :
  forall (retries : nat) (d : Z),
  choose_device_from devices retries replies = Selected d ->
  (0 <= d < Z.of_nat devices)%Z.
Proof.
  induction replies as [| r rest IH]; intros retries d;
    cbn [choose_device_from];
    destruct (Nat.ltb_spec retries max_retries) as [Hlt | Hge]; try discriminate.
  destruct r as [n |]; [| apply IH].
  destruct (Z.ltb_spec n 0) as [Hneg | Hnn]; cbn [orb]; [apply IH |].
  destruct (Z.geb_spec n (Z.of_nat devices)) as [Hbig | Hok]; [apply IH |].
  intros H. injection H as <-. lia.
Qed.

Lemma choose_device_from_turned_down (r : reply) (rest : list reply) (retries : nat) :
  turned_down devices r -> (retries < max_retries)%nat ->
  choose_device_from devices retries (r :: rest)
  = choose_device_from devices (S retries) rest.
Proof.
  intros Hbad Hlt. cbn [choose_device_from].
  destruct (Nat.ltb_spec retries max_retries) as [_ | Hge]; [| lia].
  destruct r as [n |]; [| reflexivity]. cbn in Hbad.
  destruct (Z.ltb_spec n 0) as [Hneg | Hnn]; cbn [orb]; [reflexivity |].
  destruct (Z.geb_spec n (Z.of_nat devices)) as [Hbig | Hok]; [reflexivity | lia].
Qed.

Lemma choose_device_from_first_valid (bad : list reply) :
  forall (retries : nat) (d : Z) (rest : list reply),
  Forall (turned_down devices) bad ->
  (retries + length bad < max_retries)%nat ->
  (0 <= d < Z.of_nat devices)%Z ->
  choose_device_from devices retries (bad ++ Number d :: rest) = Selected d.
Proof.
  induction bad as [| r bad IH]; intros retries d rest Hbad Hlen Hd.
  - cbn [app choose_device_from] in *.
    destruct (Nat.ltb_spec retries max_retries) as [_ | Hge]; [| lia].
    destruct (Z.ltb_spec d 0) as [Hneg | _]; [lia |]. cbn [orb].
    destruct (Z.geb_spec d (Z.of_nat devices)) as [Hbig | _]; [lia | reflexivity].
  - inversion Hbad as [| ? ? Hr Hrest]; subst. cbn [length] in Hlen.
    cbn [app]. rewrite choose_device_from_turned_down by (assumption || lia).
    apply IH; [exact Hrest | lia | exact Hd].
Qed.

Lemma choose_device_from_spent (replies : list reply) (retries : nat) :
  (max_retries <= retries)%nat ->
  choose_device_from devices retries replies = Exits 1.
Proof.
  intros Hge. destruct replies as [| r rest]; cbn [choose_device_from];
    destruct (Nat.ltb_spec retries max_retries) as [Hlt | _]; (lia || reflexivity).
Qed.

Lemma choose_device_from_gives_up (replies : list reply) :
  forall retries : nat,
  (retries <= max_retries)%nat ->
  Forall (turned_down devices) (take (max_retries - retries) replies) ->
  choose_device_from devices retries replies
  = if (max_retries - retries <=? length replies)%nat then Exits 1 else EndOfInput.
Proof.
  induction replies as [| r rest IH]; intros retries Hle Hbad.
  - cbn [length]. destruct (Nat.leb_spec (max_retries - retries) 0) as [H0 | Hpos].
    + apply choose_device_from_spent. lia.
    + cbn [choose_device_from].
      destruct (Nat.ltb_spec retries max_retries) as [_ | Hge]; [reflexivity | lia].
  - destruct (Nat.eq_dec retries max_retries) as [-> | Hne].
    + rewrite choose_device_from_spent by lia. rewrite Nat.sub_diag. reflexivity.
    + replace (max_retries - retries)%nat with (S (max_retries - S retries)) in * by lia.
      cbn [take] in Hbad. inversion Hbad as [| ? ? Hr Hrest]; subst.
      rewrite choose_device_from_turned_down by (assumption || lia).
      rewrite IH by (lia || assumption). cbn [length].
      destruct (Nat.leb_spec (max_retries - S retries) (length rest));
        destruct (Nat.leb_spec (S (max_retries - S retries)) (S (length rest)));
        (lia || reflexivity).
Qed.

Lemma choose_device_from_take (replies : list reply) :
  forall retries : nat,
  choose_device_from devices retries (take (max_retries - retries) replies)
  = choose_device_from devices retries replies.
Proof.
  induction replies as [| r rest IH]; intros retries.
  - rewrite take_nil. reflexivity.
  - destruct (Nat.ltb_spec retries max_retries) as [Hlt | Hge].
    + replace (max_retries - retries)%nat with (S (max_retries - S retries)) by lia.
      cbn [take choose_device_from].
      destruct (Nat.ltb_spec retries max_retries) as [_ | Hge]; [| lia].
      destruct r as [n |]; [| apply IH].
      destruct ((n <? 0)%Z || (n >=? Z.of_nat devices)%Z); [apply IH | reflexivity].
    + rewrite !choose_device_from_spent by lia. reflexivity.
Qed.

(** X10.  Whichever way a device index is settled, by the [--device] flag
    or by the prompt, an index that gets through is an index into the list
    of devices. *)
Theorem select_device_in_range (OUTPUT_DEVICE : option Z) (replies : list reply)
  (d : Z) :
  select_device devices OUTPUT_DEVICE replies = Selected d ->
  (0 <= d < Z.of_nat devices)%Z.
Proof.
  unfold select_device, choose_device. destruct OUTPUT_DEVICE as [flag |].
  - destruct (Z.ltb_spec flag 0) as [Hneg | Hnn]; cbn [orb]; [discriminate |].
    destruct (Z.geb_spec flag (Z.of_nat devices)) as [Hbig | Hok]; [discriminate |].
    intros H. injection H as <-. lia.
  - apply choose_device_from_in_range.
Qed.

(** X11.  The prompt takes the first reply that is an index into the list
    of devices, provided fewer than five replies were turned down before
    it. *)
Theorem choose_device_first_valid (bad : list reply) (d : Z) (rest : list reply) :
  Forall (turned_down devices) bad ->
  (length bad < 5)%nat ->
  (0 <= d < Z.of_nat devices)%Z ->
  choose_device devices (bad ++ Number d :: rest) = Selected d.
Proof.
  intros Hbad Hlen Hd. apply choose_device_from_first_valid;
    [exact Hbad | unfold max_retries; lia | exact Hd].
Qed.

(** X12.  The prompt reads five replies at most.  When the first five are
    all turned down the program exits with status 1, whatever follows;
    when the input ends before that, after turned-down replies only, the
    prompt finds the input closed. *)
Theorem choose_device_gives_up (replies : list reply) :
  choose_device devices replies = choose_device devices (take 5 replies)
  /\ (Forall (turned_down devices) (take 5 replies) ->
      choose_device devices replies
      = if (5 <=? length replies)%nat then Exits 1 else EndOfInput).
Proof.
  unfold choose_device. split.
  - symmetry. apply (choose_device_from_take replies 0).
  - intros Hbad. apply (choose_device_from_gives_up replies 0);
      [unfold max_retries; lia | exact Hbad].
Qed.

End DeviceChoice.

(** ** More on the oscillator and the callback *)

Section RenderMore.

Local Open Scope R_scope.

Variable FREQUENCY : R.
Variable VOLUME : R.
Variable SAMPLERATE : Z.
Variable CHANNELS : nat.

Lemma sample_bound (x : R) : Rabs (sin x * VOLUME) <= Rabs VOLUME.
Proof.
  rewrite Rabs_mult. pose proof (Rabs_pos VOLUME) as Hv.
  assert (Hs : Rabs (sin x) <= 1).
  { apply Rabs_le. pose proof (SIN_bound x) as [Hlo Hhi]. split; lra. }
  replace (Rabs VOLUME) with (1 * Rabs VOLUME) at 2 by lra.
  apply Rmult_le_compat_r; assumption.
Qed.

Lemma tone_well_formed (offset : R) (n : nat) :
  well_formed VOLUME CHANNELS (tone FREQUENCY VOLUME SAMPLERATE CHANNELS offset n).
Proof.
  unfold well_formed, tone. apply Forall_forall. intros row Hrow.
  apply list_elem_of_In, in_map_iff in Hrow as (i & <- & _).
  unfold tone_frame. split; [apply repeat_length |].
  apply Forall_forall. intros v Hv.
  apply list_elem_of_In, repeat_spec in Hv. subst v. apply sample_bound.
Qed.

Lemma zeros_well_formed (n : nat) :
  well_formed VOLUME CHANNELS (Np.zeros n CHANNELS).
Proof.
  unfold well_formed, Np.zeros. apply Forall_forall. intros row Hrow.
  apply list_elem_of_In, repeat_spec in Hrow. subst row.
  split; [apply repeat_length |].
  apply Forall_forall. intros v Hv.
  apply list_elem_of_In, repeat_spec in Hv. subst v.
  rewrite Rabs_R0. apply Rabs_pos.
Qed.

(** Every callback writes some frames of the running tone and then
    zeros. *)
Lemma callback_buffer (fuel : nat) (keys : gmap key bool) (offset : R)
  (frames : nat) :
  0 < FREQUENCY -> (0 < SAMPLERATE)%Z ->
  0 <= offset < 1 / FREQUENCY ->
  1 / FREQUENCY + offset + INR frames / IZR SAMPLERATE < INR fuel * (1 / FREQUENCY) ->
  exists (m : nat) (offset' : R),
    audio_callback FREQUENCY VOLUME SAMPLERATE CHANNELS fuel keys offset frames
    = Returns (tone FREQUENCY VOLUME SAMPLERATE CHANNELS offset m
               ++ Np.zeros (frames - m) CHANNELS, offset')
    /\ (m <= frames)%nat
    /\ 0 <= offset' < 1 / FREQUENCY.
Proof.
  intros Hf Hr Hoff Hfuel.
  pose proof (period_pos FREQUENCY Hf) as Hp.
  pose proof (rate_pos SAMPLERATE Hr) as Hr'.
  assert (Hadv : 0 <= INR frames / IZR SAMPLERATE).
  { apply Rmult_le_pos; [apply pos_INR | left; apply Rinv_0_lt_compat; exact Hr']. }
  destruct (gate keys) eqn:Hgate.
  - destruct (generate_audio_spec FREQUENCY VOLUME SAMPLERATE CHANNELS Hf Hr
                fuel frames offset) as [k [Hgen Hrange]]; [lra | lra |].
    unfold audio_callback. rewrite Hgate, Hgen. cbn [mbind outcome_bind].
    eexists frames, _. rewrite Nat.sub_diag.
    change (Np.zeros 0 CHANNELS) with (@nil (list R)). rewrite app_nil_r.
    split; [reflexivity |]. split; [lia | exact Hrange].
  - destruct (Req_dec_T offset 0) as [H0 | Hne].
    + subst offset. rewrite callback_rest by exact Hgate.
      exists 0%nat, 0. rewrite Nat.sub_0_r. split; [reflexivity |]. split; [lia | lra].
    + assert (Hfuel2 : (2 <= fuel)%nat).
      { destruct fuel as [| [| fuel]]; [simpl in Hfuel; lra | simpl in Hfuel; lra | lia]. }
      destruct (release_step FREQUENCY VOLUME SAMPLERATE CHANNELS Hf Hr
                  fuel keys offset frames Hgate)
        as (m & off1 & Hcb & Hmle & _ & Hrange & _); [lra | exact Hfuel2 |].
      exists m, off1. auto.
Qed.

(** X13.  Whatever the keys, the callback fills the buffer it was asked
    for: [frames] rows of [CHANNELS] values each, and no value is larger in
    absolute value than the volume. *)
Theorem callback_fills_buffer (keys : gmap key bool) (offset : R) (frames : nat) :
  0 < FREQUENCY -> (0 < SAMPLERATE)%Z ->
  0 <= offset < 1 / FREQUENCY ->
  exists fuel0 : nat, forall fuel : nat, (fuel0 <= fuel)%nat ->
  exists (outdata : list (list R)) (offset' : R),
    audio_callback FREQUENCY VOLUME SAMPLERATE CHANNELS fuel keys offset frames
    = Returns (outdata, offset')
    /\ length outdata = frames
    /\ Forall (fun row => length row = CHANNELS) outdata
    /\ Forall (Forall (fun v => Rabs v <= Rabs VOLUME)) outdata.
Proof.
  intros Hf Hr Hoff. pose proof (period_pos FREQUENCY Hf) as Hp.
  destruct (fuel_exists FREQUENCY Hf
              (1 / FREQUENCY + offset + INR frames / IZR SAMPLERATE))
    as [fuel0 Hfuel0].
  exists fuel0. intros fuel Hle.
  pose proof (fuel_le_bound fuel0 fuel _ _ Hp Hfuel0 Hle) as Hfuel.
  destruct (callback_buffer fuel keys offset frames Hf Hr Hoff Hfuel)
    as (m & offset' & Hcb & Hm & _).
  rewrite Hcb. eexists; eexists. split; [reflexivity |].
  split; [rewrite length_app, tone_length, zeros_length; lia |].
  assert (Hwf : well_formed VOLUME CHANNELS
                  (tone FREQUENCY VOLUME SAMPLERATE CHANNELS offset m
                   ++ Np.zeros (frames - m) CHANNELS)).
  { apply Forall_app. split; [apply tone_well_formed | apply zeros_well_formed]. }
  split; eapply Forall_impl; try exact Hwf; intros row [Hlen Hamp]; assumption.
Qed.

Lemma total_frames_cons (keys : gmap key bool) (frames : nat)
  (blocks : list (gmap key bool * nat)) :
  total_frames ((keys, frames) :: blocks) = (frames + total_frames blocks)%nat.
Proof. reflexivity. Qed.

(** While the keys are held the blocks are one tone, and the offset moves
    on by the frames played, less whole periods. *)
Lemma stream_held (fuel : nat) (blocks : list (gmap key bool * nat)) :
  0 < FREQUENCY -> (0 < SAMPLERATE)%Z ->
  held blocks ->
  forall offset : R,
  0 <= offset < 1 / FREQUENCY ->
  1 / FREQUENCY + INR (total_frames blocks) / IZR SAMPLERATE
    < INR fuel * (1 / FREQUENCY) ->
  exists (outs : list (list (list R))) (k : nat),
    stream FREQUENCY VOLUME SAMPLERATE CHANNELS fuel blocks offset
    = Returns (outs, offset + INR (total_frames blocks) / IZR SAMPLERATE
                     - INR k * (1 / FREQUENCY))
    /\ concat outs
       = tone FREQUENCY VOLUME SAMPLERATE CHANNELS offset (total_frames blocks)
    /\ map (@length (list R)) outs = map snd blocks
    /\ 0 <= offset + INR (total_frames blocks) / IZR SAMPLERATE
            - INR k * (1 / FREQUENCY) < 1 / FREQUENCY.
Proof.
  intros Hf Hr Hheld. pose proof (rate_pos SAMPLERATE Hr) as Hr'.
  induction Hheld as [| [keys frames] blocks Hgate _ IH]; intros offset Hoff Hfuel.
  - exists [], 0%nat.
    assert (E : offset + INR (total_frames []) / IZR SAMPLERATE
                - INR 0 * (1 / FREQUENCY) = offset) by (simpl; lra).
    rewrite E. repeat split; try reflexivity; lra.
  - simpl in Hgate. rewrite total_frames_cons in *. rewrite plus_INR in Hfuel.
    assert (Hn : 0 <= INR frames / IZR SAMPLERATE)
      by (apply Rmult_le_pos; [apply pos_INR | left; apply Rinv_0_lt_compat; exact Hr']).
    assert (Hs : 0 <= INR (total_frames blocks) / IZR SAMPLERATE)
      by (apply Rmult_le_pos; [apply pos_INR | left; apply Rinv_0_lt_compat; exact Hr']).
    unfold Rdiv in Hfuel at 2. rewrite Rmult_plus_distr_r in Hfuel.
    fold (INR frames / IZR SAMPLERATE) in Hfuel.
    fold (INR (total_frames blocks) / IZR SAMPLERATE) in Hfuel.
    destruct (generate_audio_spec FREQUENCY VOLUME SAMPLERATE CHANNELS Hf Hr
                fuel frames offset) as [k1 [Hgen Hrange1]]; [lra | lra |].
    destruct (IH _ Hrange1) as (outs & k2 & Hrest & Hcat & Hlen & Hrange2); [lra |].
    cbn [stream]. unfold audio_callback. rewrite Hgate, Hgen.
    cbn [mbind outcome_bind]. rewrite Hrest. cbn [mbind outcome_bind].
    eexists; exists (k1 + k2)%nat. rewrite !plus_INR.
    replace (offset + (INR frames + INR (total_frames blocks)) / IZR SAMPLERATE
             - (INR k1 + INR k2) * (1 / FREQUENCY))
      with (offset + INR frames / IZR SAMPLERATE - INR k1 * (1 / FREQUENCY)
            + INR (total_frames blocks) / IZR SAMPLERATE - INR k2 * (1 / FREQUENCY))
      by (field; lra).
    split; [reflexivity |]. split; [| split; [| exact Hrange2]].
    + cbn [concat]. rewrite Hcat.
      rewrite (tone_period FREQUENCY VOLUME SAMPLERATE CHANNELS Hf),
        <- (tone_app _ _ _ _ Hr). reflexivity.
    + cbn [map snd]. rewrite tone_length, Hlen. reflexivity.
Qed.

(** X14.  While the keys are held, the buffers of consecutive callbacks,
    whatever their sizes, laid end to end are the one tone that starts at
    the stored offset: no block boundary shows in the samples, and each
    buffer has the size asked for. *)
Theorem held_stream_is_one_tone (blocks : list (gmap key bool * nat)) (offset : R) :
  0 < FREQUENCY -> (0 < SAMPLERATE)%Z ->
  held blocks ->
  0 <= offset < 1 / FREQUENCY ->
  exists fuel0 : nat, forall fuel : nat, (fuel0 <= fuel)%nat ->
  exists (outs : list (list (list R))) (offset' : R),
    stream FREQUENCY VOLUME SAMPLERATE CHANNELS fuel blocks offset
    = Returns (outs, offset')
    /\ concat outs
       = tone FREQUENCY VOLUME SAMPLERATE CHANNELS offset (total_frames blocks)
    /\ map (@length (list R)) outs = map snd blocks
    /\ 0 <= offset' < 1 / FREQUENCY.
Proof.
  intros Hf Hr Hheld Hoff. pose proof (period_pos FREQUENCY Hf) as Hp.
  destruct (fuel_exists FREQUENCY Hf
              (1 / FREQUENCY + INR (total_frames blocks) / IZR SAMPLERATE))
    as [fuel0 Hfuel0].
  exists fuel0. intros fuel Hle.
  pose proof (fuel_le_bound fuel0 fuel _ _ Hp Hfuel0 Hle) as Hfuel.
  destruct (stream_held fuel blocks Hf Hr Hheld offset Hoff Hfuel)
    as (outs & k & Hst & Hcat & Hlen & Hrange).
  eexists; eexists. split; [exact Hst |]. auto.
Qed.

(** X18.  What [generate_audio] raises: [ZeroDivisionError] when the sample
    rate is 0; [ValueError], from [np.linspace], for a negative count;
    [ZeroDivisionError], at the loop test, when the frequency is 0. *)
Theorem generate_audio_raises (fuel : nat) (num_samples : Z) (offset : R) :
  (SAMPLERATE = 0%Z ->
   generate_audio FREQUENCY VOLUME SAMPLERATE CHANNELS fuel num_samples offset
   = Raises ZeroDivisionError)
  /\ (SAMPLERATE <> 0%Z -> (num_samples < 0)%Z ->
      exists msg : str,
        generate_audio FREQUENCY VOLUME SAMPLERATE CHANNELS fuel num_samples offset
        = Raises (ValueError msg))
  /\ (SAMPLERATE <> 0%Z -> (0 <= num_samples)%Z -> FREQUENCY = 0 ->
      (1 <= fuel)%nat ->
      generate_audio FREQUENCY VOLUME SAMPLERATE CHANNELS fuel num_samples offset
      = Raises ZeroDivisionError).
Proof.
  split; [apply generate_audio_zero_rate |].
  split; [apply generate_audio_negative |].
  intros Hr Hnum Hf Hfuel. unfold generate_audio.
  rewrite !truediv_ok by (intros H; apply eq_IZR in H; contradiction).
  cbn [mbind outcome_bind]. unfold Np.linspace.
  destruct (Z.ltb_spec num_samples 0) as [Hneg | _]; [lia |].
  cbn [mbind outcome_bind]. destruct fuel as [| fuel]; [lia |].
  cbn [wrap_offset]. unfold Py.truediv. subst FREQUENCY.
  destruct (Req_dec_T 0 0) as [_ | Hne]; [reflexivity | contradiction].
Qed.

(** X19.  With a negative frequency the loop of [generate_audio] never
    ends: for a count and an offset that are not negative the call does
    not return, however much fuel it gets, and neither does a callback
    that finds the keys held. *)
Theorem negative_frequency_hangs (fuel : nat) (keys : gmap key bool)
  (frames : nat) (offset : R) :
  FREQUENCY < 0 -> (0 < SAMPLERATE)%Z -> 0 <= offset ->
  generate_audio FREQUENCY VOLUME SAMPLERATE CHANNELS fuel (Z.of_nat frames) offset
  = OutOfFuel
  /\ (gate keys = true ->
      audio_callback FREQUENCY VOLUME SAMPLERATE CHANNELS fuel keys offset frames
      = OutOfFuel).
Proof.
  intros Hf Hr Hoff. pose proof (rate_pos SAMPLERATE Hr) as Hr'.
  assert (Hgen : generate_audio FREQUENCY VOLUME SAMPLERATE CHANNELS fuel
                   (Z.of_nat frames) offset = OutOfFuel).
  { unfold generate_audio. rewrite !truediv_ok by lra.
    cbn [mbind outcome_bind]. unfold Np.linspace.
    destruct (Z.ltb_spec (Z.of_nat frames) 0) as [Hneg | _]; [lia |].
    cbn [mbind outcome_bind].
    rewrite wrap_offset_spins; [reflexivity | exact Hf |].
    assert (Hp : 1 / FREQUENCY < 0).
    { unfold Rdiv. rewrite Rmult_1_l. apply Rinv_lt_0_compat. exact Hf. }
    assert (0 <= IZR (Z.of_nat frames) / IZR SAMPLERATE).
    { apply Rmult_le_pos; [apply IZR_le; lia | left; apply Rinv_0_lt_compat; exact Hr']. }
    lra. }
  split; [exact Hgen |].
  intros Hgate. unfold audio_callback. rewrite Hgate, Hgen. reflexivity.
Qed.

End RenderMore.

(** ** The further theorems in the default session *)

Section DefaultSessionMore.

Local Open Scope R_scope.

Lemma readable_key_round_trip_witness :
  key_object (readable_key (KeyCode (latin "q"))) = Returns (KeyCode (latin "q"))
  /\ lower (readable_key (KeyCode (latin "q"))) = readable_key (KeyCode (latin "q"))
  /\ readable_key (KeyCode (latin "q")) = lower (latin "Q").
Proof.
  destruct (readable_key_round_trip (latin "Q") (KeyCode (latin "q")))
    as (Hback & Hlower & Hchar); [vm_compute; reflexivity |].
  split; [exact Hback |]. split; [exact Hlower | exact (Hchar _ eq_refl)].
Defined.

Lemma keys_dict_domain_witness :
  (forall k : key,
     is_Some (shift_r_up !! k)
     <-> exists name : str, name ∈ [latin "shift_r"] /\ key_object name = Returns k)
  /\ (size shift_r_up <= 1)%nat.
Proof.
  apply (keys_dict_domain [latin "shift_r"] shift_r_up). exact keys_dict_default.
Defined.

Lemma get_readable_keys_names_witness :
  exists l : list key,
    keys_order [latin "shift_r"] = Returns l
    /\ NoDup l
    /\ (forall k : key, k ∈ l <-> is_Some (shift_r_up !! k))
    /\ Forall2 (fun shown k => key_object shown = Returns k)
         (get_readable_keys l) l
    /\ NoDup (get_readable_keys l).
Proof.
  apply (get_readable_keys_names [latin "shift_r"] shift_r_up).
  exact keys_dict_default.
Defined.

Lemma gate_after_events_witness :
  gate (listen [Pressed (KeyCode (latin "x")); Pressed (Special Key.shift_r)] shift_r_up)
  = true
  <-> forall k : key,
        is_Some (shift_r_up !! k) ->
        latest k [Pressed (KeyCode (latin "x")); Pressed (Special Key.shift_r)] = Some true.
Proof.
  apply (gate_after_events [latin "shift_r"] shift_r_up). exact keys_dict_default.
Defined.

Lemma gate_press_release_witness :
  gate (on_release (Special Key.shift_r) shift_r_down) = false
  /\ (gate (on_press (Special Key.shift_r) shift_r_down) = true
      <-> forall (k' : key) (v : bool),
            k' <> Special Key.shift_r -> shift_r_down !! k' = Some v -> v = true).
Proof.
  apply (gate_press_release (Special Key.shift_r) shift_r_down).
  exists true. apply lookup_singleton_eq.
Defined.

Lemma handlers_compose_witness :
  on_press (Special Key.shift_r) (on_press (KeyCode (latin "a")) shift_r_up)
  = on_press (KeyCode (latin "a")) (on_press (Special Key.shift_r) shift_r_up)
  /\ on_press (Special Key.shift_r) (on_release (KeyCode (latin "a")) shift_r_up)
     = on_release (KeyCode (latin "a")) (on_press (Special Key.shift_r) shift_r_up)
  /\ on_release (Special Key.shift_r) (on_release (KeyCode (latin "a")) shift_r_up)
     = on_release (KeyCode (latin "a")) (on_release (Special Key.shift_r) shift_r_up).
Proof.
  destruct (handlers_compose (Special Key.shift_r) (KeyCode (latin "a")) shift_r_up)
    as (_ & _ & _ & _ & Hswap).
  apply Hswap. discriminate.
Defined.

Lemma select_device_in_range_witness : (0 <= 2 < Z.of_nat 3)%Z.
Proof.
  apply (select_device_in_range 3 None [NotANumber; Number 7; Number 2] 2).
  reflexivity.
Defined.

Lemma choose_device_first_valid_witness :
  choose_device 3 ([NotANumber; Number 7; Number (-1)] ++ Number 2 :: [Number 0])
  = Selected 2.
Proof.
  apply (choose_device_first_valid 3 [NotANumber; Number 7; Number (-1)] 2 [Number 0]).
  - constructor; [exact I |]. constructor; [right; cbn; lia |].
    constructor; [left; lia | constructor].
  - cbn. lia.
  - cbn. lia.
Defined.

Lemma choose_device_gives_up_witness :
  choose_device 3 [NotANumber; Number 3; Number (-1); NotANumber; Number 9; Number 1]
  = Exits 1.
Proof.
  destruct (choose_device_gives_up 3
              [NotANumber; Number 3; Number (-1); NotANumber; Number 9; Number 1])
    as [_ Hquit].
  apply Hquit. cbn [take].
  constructor; [exact I |]. constructor; [right; cbn; lia |].
  constructor; [left; lia |]. constructor; [exact I |].
  constructor; [right; cbn; lia | constructor].
Defined.

Lemma callback_fills_buffer_witness :
  exists fuel0 : nat, forall fuel : nat, (fuel0 <= fuel)%nat ->
  exists (outdata : list (list R)) (offset' : R),
    audio_callback 440 (1 / 2) 44100 2 fuel shift_r_up (1 / 1000) 256
    = Returns (outdata, offset')
    /\ length outdata = 256%nat
    /\ Forall (fun row => length row = 2%nat) outdata
    /\ Forall (Forall (fun v => Rabs v <= Rabs (1 / 2))) outdata.
Proof.
  apply (callback_fills_buffer 440 (1 / 2) 44100 2 shift_r_up (1 / 1000) 256);
    [lra | lia | lra].
Defined.

Lemma held_stream_is_one_tone_witness :
  exists fuel0 : nat, forall fuel : nat, (fuel0 <= fuel)%nat ->
  exists (outs : list (list (list R))) (offset' : R),
    stream 440 (1 / 2) 44100 2 fuel
      [(shift_r_down, 256%nat); (shift_r_down, 128%nat)] 0
    = Returns (outs, offset')
    /\ concat outs = tone 440 (1 / 2) 44100 2 0 384
    /\ map (@length (list R)) outs = [256%nat; 128%nat]
    /\ 0 <= offset' < 1 / 440.
Proof.
  apply (held_stream_is_one_tone 440 (1 / 2) 44100 2
           [(shift_r_down, 256%nat); (shift_r_down, 128%nat)] 0);
    [lra | lia | repeat constructor; exact shift_r_down_gate | lra].
Defined.

Lemma generate_audio_raises_witness :
  generate_audio 440 (1 / 2) 0 2 1 256 0 = Raises ZeroDivisionError
  /\ (exists msg : str,
        generate_audio 440 (1 / 2) 44100 2 1 (-1) 0 = Raises (ValueError msg))
  /\ generate_audio 0 (1 / 2) 44100 2 1 256 0 = Raises ZeroDivisionError.
Proof.
  destruct (generate_audio_raises 440 (1 / 2) 0 2 1 256 0) as (Hrate & _).
  destruct (generate_audio_raises 440 (1 / 2) 44100 2 1 (-1) 0) as (_ & Hcount & _).
  destruct (generate_audio_raises 0 (1 / 2) 44100 2 1 256 0) as (_ & _ & Hfreq).
  split; [apply Hrate; reflexivity |].
  split; [apply Hcount; lia |].
  apply Hfreq; [lia | lia | reflexivity | lia].
Defined.

Lemma negative_frequency_hangs_witness :
  generate_audio (- 440) (1 / 2) 44100 2 1000 (Z.of_nat 256) 0 = OutOfFuel
  /\ audio_callback (- 440) (1 / 2) 44100 2 1000 shift_r_down 0 256 = OutOfFuel.
Proof.
  destruct (negative_frequency_hangs (- 440) (1 / 2) 44100 2 1000 shift_r_down 256 0)
    as [Hgen Hcb]; [lra | lia | lra |].
  split; [exact Hgen | apply Hcb; exact shift_r_down_gate].
Defined.

End DefaultSessionMore.
